(** * Compact settings serialisation: [scripts/gen_settings_v2.py]

    A shallow embedding of the generator's core: the breadth-first
    flattening of a tree of [StructVal] objects ([flatten_values_tree]),
    the byte emitter ([get_cpp_data_for_struct_val],
    [gen_cpp_data_for_struct_values]) and the packed version number the
    module docstring describes.

    Python objects live in a store indexed by object identity; the only
    attribute the script ever writes is [offset].  Exceptions and the
    mutable store are threaded through a small state-and-error monad. *)

From Stdlib Require Import ZArith Lia Permutation Ascii String.
From stdpp Require Import gmap strings list fin_maps.

Open Scope string_scope.
Open Scope list_scope.

(* ===================================================================== *)
(** ** Exceptions and outcomes *)
(* ===================================================================== *)

(** The Python exceptions the modelled code can raise.  [NoSuchObject]
    stands for an identity that names no object of the store; a running
    Python program cannot hold such a reference, the model reports it
    instead of inventing an object. *)
Inductive exn :=
  | AssertionError
  | AttributeError
  | IndexError
  | TypeError
  | StructError
  | NoSuchObject.

(** The result of running a piece of code: a value, a raised exception,
    or the loop bound of the model exhausted. *)
Inductive outcome (A : Type) :=
  | Ok (a : A)
  | Raise (e : exn)
  | OutOfFuel.
Arguments Ok {A} a.
Arguments Raise {A} e.
Arguments OutOfFuel {A}.

(* ===================================================================== *)
(** ** [struct] pack formats *)
(* ===================================================================== *)

(** Byte order prefix of a [struct] format string: ["<"] or [">"]. *)
Inductive byte_order := LittleEndian | BigEndian.

(** Integer format characters of the [struct] module, standard sizes:
    [b B h H i I q Q]. *)
Inductive fmt_code := Fmt_b | Fmt_B | Fmt_h | Fmt_H | Fmt_i | Fmt_I | Fmt_q | Fmt_Q.

Record pack_fmt := PackFmt { fmt_order : byte_order; fmt_char : fmt_code }.

(** [struct.calcsize] for a one-character format with standard sizes. *)
Definition calcsize (f : pack_fmt) : nat :=
  match fmt_char f with
  | Fmt_b | Fmt_B => 1
  | Fmt_h | Fmt_H => 2
  | Fmt_i | Fmt_I => 4
  | Fmt_q | Fmt_Q => 8
  end.

Definition fmt_signed (f : pack_fmt) : bool :=
  match fmt_char f with
  | Fmt_b | Fmt_h | Fmt_i | Fmt_q => true
  | _ => false
  end.

(** The range check of [struct.pack]: an unsigned code of [n] bytes takes
    [0 <= z < 2^(8n)], a signed one [-2^(8n-1) <= z < 2^(8n-1)]. *)
Definition fits (f : pack_fmt) (z : Z) : bool :=
  let bits := (8 * Z.of_nat (calcsize f))%Z in
  if fmt_signed f
  then ((- 2 ^ (bits - 1) <=? z) && (z <? 2 ^ (bits - 1)))%Z
  else ((0 <=? z) && (z <? 2 ^ bits))%Z.

(** The [n] low bytes of [z], least significant first (two's complement
    for a negative [z]). *)
Fixpoint le_bytes (n : nat) (z : Z) : list Z :=
  match n with
  | O => []
  | S n' => (z mod 256)%Z :: le_bytes n' (z / 256)%Z
  end.

Definition int_bytes (f : pack_fmt) (z : Z) : list Z :=
  match fmt_order f with
  | LittleEndian => le_bytes (calcsize f) z
  | BigEndian => rev (le_bytes (calcsize f) z)
  end.

(* ===================================================================== *)
(** ** Python values and objects *)
(* ===================================================================== *)

(** Object identity. *)
Abbreviation addr := positive.

(** What a [val] attribute can hold: [None], an integer, or a list of
    field objects. *)
Inductive PyVal :=
  | VNone
  | VInt (z : Z)
  | VList (fields : list addr).

(** Modelled from the spec: the field descriptor class of
    [gen_settings_types_v2] is not part of the sources; the script reads
    its attributes [name], [c_type] and [pack_format]. *)
Record Var := MkVar {
  name : string;
  c_type : string;
  pack_format : pack_fmt;
}.

(** Modelled from the spec: the struct definition class of
    [gen_settings_types_v2]; the script reads [name], [vars] and
    [c_size]. *)
Record StructDef := MkStructDef {
  sd_name : string;
  vars : list Var;
  c_size : Z;
}.

(** Modelled from the spec: instances of [Val] and of its subclass
    [StructVal] from [gen_settings_types_v2].  [is_StructVal] is the
    answer of [isinstance(o, StructVal)]; [struct_def] is absent on a
    plain [Val]; [offset] is [None] until assigned. *)
Record Obj := MkObj {
  is_StructVal : bool;
  typ : Var;
  val : PyVal;
  is_struct : bool;
  offset : option Z;
  struct_def : option StructDef;
}.

(** The attribute store [o.offset = z]. *)
Definition with_offset (o : Obj) (z : Z) : Obj :=
  {| is_StructVal := is_StructVal o; typ := typ o; val := val o;
     is_struct := is_struct o; offset := Some z;
     struct_def := struct_def o |}.

(** Everything of an object but its offset. *)
Definition shape (o : Obj) : Obj :=
  {| is_StructVal := is_StructVal o; typ := typ o; val := val o;
     is_struct := is_struct o; offset := None;
     struct_def := struct_def o |}.

Abbreviation heap := (gmap addr Obj).

(** [x != None] *)
Definition not_None (v : PyVal) : bool :=
  match v with VNone => false | _ => true end.

(* ===================================================================== *)
(** ** The state-and-error monad *)
(* ===================================================================== *)

Definition M (A : Type) : Type := heap -> outcome A * heap.

Definition ret {A} (a : A) : M A := fun h => (Ok a, h).

Definition raise {A} (e : exn) : M A := fun h => (Raise e, h).

Definition bind {A B} (m : M A) (f : A -> M B) : M B :=
  fun h =>
    match m h with
    | (Ok a, h') => f a h'
    | (Raise e, h') => (Raise e, h')
    | (OutOfFuel, h') => (OutOfFuel, h')
    end.

Notation "'let!' x ':=' m 'in' k" := (bind m (fun x => k))
  (at level 10, x name, m at level 100, k at level 200).

(** Dereference an object identity. *)
Definition get_obj (a : addr) : M Obj :=
  fun h => match h !! a with
           | Some o => (Ok o, h)
           | None => (Raise NoSuchObject, h)
           end.

(** [a.offset = z] *)
Definition set_offset (a : addr) (z : Z) : M unit :=
  fun h => match h !! a with
           | Some o => (Ok tt, <[a := with_offset o z]> h)
           | None => (Raise NoSuchObject, h)
           end.

(** [assert b] *)
Definition py_assert (b : bool) : M unit :=
  if b then ret tt else raise AssertionError.

(** Attribute access that fails when the attribute is absent. *)
Definition get_attr {A} (x : option A) : M A :=
  match x with Some a => ret a | None => raise AttributeError end.

(** Iterating over [o.val]: only a list can be iterated. *)
Definition iter_val (v : PyVal) : M (list addr) :=
  match v with VList fs => ret fs | _ => raise TypeError end.

(* ===================================================================== *)
(** ** [flatten_values_tree] *)
(* ===================================================================== *)

(** The inner [for field in val.val] loop; [left] is the work queue,
    extended at the back. *)
Fixpoint for_fields (fs : list addr) (left : list addr) : M (list addr) :=
  match fs with
  | [] => ret left
  | field :: fs' =>
      let! fo := get_obj field in
      if is_struct fo && not_None (val fo)
      then let! _ := py_assert (is_StructVal fo) in
           for_fields fs' (left ++ [field])
      else for_fields fs' left
  end.

(** The local variables of the [while] loop. *)
Record locals := Locals {
  l_left : list addr;
  l_offset : Z;
  l_vals : list addr;
}.

(** One iteration of the [while] body, entered with the popped front
    [v] and the rest [left'] of the queue. *)
Definition loop_body (v : addr) (left' : list addr) (off : Z)
    (vals : list addr) : M locals :=
  let! _ := set_offset v off in
  let! o := get_obj v in
  let! fs := iter_val (val o) in
  let! left'' := for_fields fs left' in
  let! sd := get_attr (struct_def o) in
  ret (Locals left'' (off + c_size sd)%Z (vals ++ [v])).

(** [while len(left) > 0: ...]; [fuel] bounds the number of iterations. *)
Fixpoint while_left (fuel : nat) (st : locals) : M (list addr) :=
  match l_left st with
  | [] => ret (l_vals st)
  | v :: left' =>
      match fuel with
      | O => fun h => (OutOfFuel, h)
      | S fuel' =>
          let! st' := loop_body v left' (l_offset st) (l_vals st) in
          while_left fuel' st'
      end
  end.

(** [val.struct_def.vars[0].name] *)
Definition first_var_name (o : Obj) : M string :=
  let! sd := get_attr (struct_def o) in
  match vars sd with
  | v0 :: _ => ret (name v0)
  | [] => raise IndexError
  end.

Definition flatten_values_tree (fuel : nat) (root : addr) : M (list addr) :=
  let! o := get_obj root in
  let! _ := py_assert (is_StructVal o) in
  let! n := first_var_name o in
  let! _ := py_assert (String.eqb "version" n) in
  while_left fuel (Locals [root] 0%Z []).

(* ===================================================================== *)
(** ** The byte emitter *)
(* ===================================================================== *)

(** A line of the generated C table.  Each constructor stands for one
    format string of the script; the bytes of a data line are kept as
    numbers (the script prints them with ["0x%02x"]). *)
Inductive line :=
  | ArrayOpen (struct_name : string)
      (* "static uint8_t g%sDefault[] = {" *)
  | BlankLine
      (* "" *)
  | HeaderLine (struct_name : string) (base : Z)
      (* "  // %s offset: %s" *)
  | DataLine (data : list Z) (var_type var_name : string) (v : PyVal)
      (* "  %(data_hex)s, // %(var_type)s %(var_name)s = %(val_str)s" *)
  | ArrayClose.
      (* "};" *)

(** [struct.pack(fmt, val)] for a one-integer format: anything but an
    integer in range raises [struct.error]. *)
Definition struct_pack (f : pack_fmt) (v : PyVal) : M (list Z) :=
  match v with
  | VInt z => if fits f z then ret (int_bytes f z) else raise StructError
  | _ => raise StructError
  end.

(** The value packed for a field: the offset of a struct field, the
    bound value of any other.  A struct field without offset trips the
    [assert False]; the assignment of 0 after it is never reached. *)
Definition field_value (fo : Obj) : M PyVal :=
  if is_struct fo then
    match offset fo with
    | None => let! _ := py_assert false in ret (VInt 0)
    | Some z => ret (VInt z)
    end
  else ret (val fo).

(** The [for field in struct_val.val] loop of
    [get_cpp_data_for_struct_val].  When [struct.pack] raises, the
    [except] clause prints the record and the value and re-raises; the
    two prints are left out. *)
Fixpoint for_fields_data (fs : list addr) (lines : list line) (size : Z)
    : M (list line * Z) :=
  match fs with
  | [] => ret (lines, size)
  | field :: fs' =>
      let! fo := get_obj field in
      let fmt := pack_format (typ fo) in
      let! v := field_value fo in
      let! data := struct_pack fmt v in
      let size' := (size + Z.of_nat (length data))%Z in
      let s := DataLine data (c_type (typ fo)) (name (typ fo)) v in
      for_fields_data fs' (lines ++ [s]) size'
  end.

Definition get_cpp_data_for_struct_val (struct_val : addr) (off : Z)
    : M (list line * Z) :=
  let! o := get_obj struct_val in
  let! _ := py_assert (is_StructVal o) in
  let! sd := get_attr (struct_def o) in
  let lines := [BlankLine; HeaderLine (sd_name sd) off] in
  let! fs := iter_val (val o) in
  for_fields_data fs lines 0%Z.

(** The [for val in vals] loop of [gen_cpp_data_for_struct_values]. *)
Fixpoint for_vals (vals : list addr) (lines : list line) (off : Z)
    : M (list line) :=
  match vals with
  | [] => ret lines
  | v :: vals' =>
      let! r := get_cpp_data_for_struct_val v off in
      for_vals vals' (lines ++ fst r) (off + snd r)%Z
  end.

Definition gen_cpp_data_for_struct_values (vals : list addr) : M (list line) :=
  match vals with
  | [] => raise IndexError
  | v0 :: _ =>
      let! o := get_obj v0 in
      let! _ := py_assert (is_StructVal o) in
      let! sd := get_attr (struct_def o) in
      let lines := [ArrayOpen (sd_name sd)] in
      let! lines' := for_vals vals lines 0%Z in
      ret (lines' ++ [ArrayClose])
  end.

(** The two steps [main] runs on the top-level value: flatten, then
    emit. *)
Definition main_values (fuel : nat) (root : addr) : M (list line) :=
  let! vals := flatten_values_tree fuel root in
  gen_cpp_data_for_struct_values vals.

(** The bytes of the generated table, in order. *)
Definition line_bytes (l : line) : list Z :=
  match l with DataLine data _ _ _ => data | _ => [] end.

Definition data_bytes (ls : list line) : list Z :=
  concat (map line_bytes ls).

(* ===================================================================== *)
(** ** The packed version number *)
(* ===================================================================== *)

Definition component_ok (c : Z) : bool := ((0 <=? c) && (c <=? 255))%Z.

(** Modelled from the spec: the version codec is described by the module
    docstring only; [encode] follows the spec's contract, failing on a
    component outside 0..255. *)
Definition encode (major minor patch build : Z) : option Z :=
  if component_ok major && component_ok minor && component_ok patch
     && component_ok build
  then Some (Z.lor (Z.lor (Z.lor (Z.shiftl major 24) (Z.shiftl minor 16))
                          (Z.shiftl patch 8)) build)
  else None.

(** Lexicographic comparison of two version tuples, major first. *)
Definition lex4 (a b : Z * Z * Z * Z) : comparison :=
  let '(a1, a2, a3, a4) := a in
  let '(b1, b2, b3, b4) := b in
  match (a1 ?= b1)%Z with
  | Eq => match (a2 ?= b2)%Z with
          | Eq => match (a3 ?= b3)%Z with
                  | Eq => (a4 ?= b4)%Z
                  | c => c
                  end
          | c => c
          end
  | c => c
  end.

(* ===================================================================== *)
(** ** Value trees *)
(* ===================================================================== *)

(** A finite tree of object identities: what a store looks like from a
    root when nothing is shared and nothing is cyclic. *)
#[local] Unset Elimination Schemes.
Inductive tree := Node (a : addr) (cs : list tree).
#[local] Set Elimination Schemes.

Definition root (t : tree) : addr := match t with Node a _ => a end.
Definition subtrees (t : tree) : list tree := match t with Node _ cs => cs end.

(** The nodes of a tree, parent first. *)
Fixpoint nodes (t : tree) : list addr :=
  match t with Node a cs => a :: concat (map nodes cs) end.

Fixpoint tree_size (t : tree) : nat :=
  match t with Node _ cs => S (list_sum (map tree_size cs)) end.

(** Merge two lists of levels, level by level. *)
Fixpoint zip_levels (xs ys : list (list addr)) : list (list addr) :=
  match xs, ys with
  | [], _ => ys
  | _, [] => xs
  | x :: xs', y :: ys' => (x ++ y) :: zip_levels xs' ys'
  end.

(** The nodes of a tree generation by generation: the root, then all its
    children, then all grandchildren, ... each generation left to
    right. *)
Fixpoint levels (t : tree) : list (list addr) :=
  match t with
  | Node a cs => [a] :: foldr zip_levels [] (map levels cs)
  end.

Definition forest_levels (ts : list tree) : list (list addr) :=
  foldr zip_levels [] (map levels ts).

Definition level_order (t : tree) : list addr := concat (levels t).

(** The fields of a record that the flattener follows. *)
Definition follows (h : heap) (f : addr) : bool :=
  match h !! f with
  | Some fo => is_struct fo && not_None (val fo)
  | None => false
  end.

Definition in_heap (h : heap) (a : addr) : bool :=
  match h !! a with Some _ => true | None => false end.

(** [t] describes the store from [root t]: every node is a [StructVal]
    with a struct definition and a list of field objects, and its
    children are, in field order, the fields that are non-null
    structs. *)
Fixpoint is_tree (h : heap) (t : tree) : bool :=
  match t with
  | Node a cs =>
      match h !! a with
      | Some o =>
          is_StructVal o
          && match struct_def o with Some _ => true | None => false end
          && match val o with
             | VList fs =>
                 forallb (in_heap h) fs
                 && bool_decide (List.filter (follows h) fs = map root cs)
             | _ => false
             end
          && forallb (is_tree h) cs
      | None => false
      end
  end.

(** The check on the top-level struct. *)
Definition first_var_is_version (h : heap) (a : addr) : bool :=
  match h !! a with
  | Some o =>
      match struct_def o with
      | Some sd =>
          match vars sd with
          | v0 :: _ => String.eqb "version" (name v0)
          | [] => false
          end
      | None => false
      end
  | None => false
  end.

(** [c_size] of the record at [a]. *)
Definition c_size_at (h : heap) (a : addr) : Z :=
  match h !! a with
  | Some o => match struct_def o with Some sd => c_size sd | None => 0%Z end
  | None => 0%Z
  end.

Definition offset_at (h : heap) (a : addr) : option Z :=
  match h !! a with Some o => offset o | None => None end.

(** Assigning cumulative offsets along a list of records. *)
Fixpoint assign_offsets (l : list addr) (off : Z) (h : heap) : heap :=
  match l with
  | [] => h
  | a :: l' =>
      match h !! a with
      | Some o => assign_offsets l' (off + c_size_at h a)%Z (<[a := with_offset o off]> h)
      | None => h
      end
  end.

(* ===================================================================== *)
(** ** Example stores *)
(* ===================================================================== *)

Module Examples.

Definition u32 (n : string) : Var := MkVar n "uint32_t" (PackFmt LittleEndian Fmt_I).
Definition u16 (n : string) : Var := MkVar n "uint16_t" (PackFmt LittleEndian Fmt_H).
Definition u8 (n : string) : Var := MkVar n "uint8_t" (PackFmt LittleEndian Fmt_B).
Definition ptr (n : string) : Var := MkVar n "Ptr" (PackFmt LittleEndian Fmt_Q).

(** A primitive field object. *)
Definition prim (t : Var) (z : Z) : Obj :=
  MkObj false t (VInt z) false None None.

(** A record. *)
Definition record (t : Var) (sd : StructDef) (fs : list addr) : Obj :=
  MkObj true t (VList fs) true None (Some sd).

(** A struct field bound to [None]. *)
Definition null_ref (t : Var) (sd : StructDef) : Obj :=
  MkObj true t VNone true None (Some sd).

Definition defC : StructDef := MkStructDef "C" [u32 "version"; u8 "flag"] 5.
Definition defS : StructDef :=
  MkStructDef "S" [u32 "version"; u32 "count"; ptr "child"] 16.

(** The spec's end-to-end schema: [S{version, count, child: C}],
    [C{version, flag}], version 2.3. *)
Definition heapSC : heap :=
  list_to_map
    [ (1%positive, record (ptr "root") defS [2; 3; 4]%positive);
      (2%positive, prim (u32 "version") 33751040);
      (3%positive, prim (u32 "count") 5);
      (4%positive, record (ptr "child") defC [5; 6]%positive);
      (5%positive, prim (u32 "version") 33751040);
      (6%positive, prim (u8 "flag") 1) ].

Definition treeSC : tree := Node 1%positive [Node 4%positive []].

(** The same schema with the child reference left null. *)
Definition heapNull : heap :=
  list_to_map
    [ (1%positive, record (ptr "root") defS [2; 3; 4]%positive);
      (2%positive, prim (u32 "version") 33751040);
      (3%positive, prim (u32 "count") 5);
      (4%positive, null_ref (ptr "child") defC) ].

(** Two records that reference each other. *)
Definition defA : StructDef := MkStructDef "A" [u32 "version"; ptr "b"] 12.
Definition defB : StructDef := MkStructDef "B" [u32 "version"; ptr "a"] 12.

Definition heapAB : heap :=
  list_to_map
    [ (1%positive, record (ptr "a") defA [3; 2]%positive);
      (2%positive, record (ptr "b") defB [4; 1]%positive);
      (3%positive, prim (u32 "version") 33751040);
      (4%positive, prim (u32 "version") 33751040) ].

(** A top-level struct whose first field is called "version" but is 16
    bits wide. *)
Definition defW : StructDef := MkStructDef "W" [u16 "version"; u32 "count"] 6.

Definition heapW : heap :=
  list_to_map
    [ (1%positive, record (ptr "root") defW [2; 3]%positive);
      (2%positive, prim (u16 "version") 515);
      (3%positive, prim (u32 "count") 5) ].

(** A top-level struct whose first field is not called "version". *)
Definition defN : StructDef := MkStructDef "N" [u32 "count"] 4.

Definition heapN : heap :=
  list_to_map
    [ (1%positive, record (ptr "root") defN [2]%positive);
      (2%positive, prim (u32 "count") 5) ].

(** A U32 field bound to 2^32. *)
Definition heapBig : heap :=
  list_to_map
    [ (1%positive, record (ptr "root") defS [2; 3; 4]%positive);
      (2%positive, prim (u32 "version") 33751040);
      (3%positive, prim (u32 "count") 4294967296);
      (4%positive, record (ptr "child") defC [5; 6]%positive);
      (5%positive, prim (u32 "version") 33751040);
      (6%positive, prim (u8 "flag") 1) ].

End Examples.

(* ===================================================================== *)
(** ** Text helpers of the script *)
(* ===================================================================== *)

Definition CR : ascii := ascii_of_nat 13.
Definition LF : ascii := ascii_of_nat 10.

(** The scan of [str.replace] for a non-empty [old]: left to right, an
    occurrence is replaced and skipped, the text of a replacement is not
    scanned again.  [skip] counts the characters of the current
    occurrence still to pass. *)
Fixpoint replace_from (old new : string) (skip : nat) (s : string) : string :=
  match s with
  | EmptyString => EmptyString
  | String c s' =>
      match skip with
      | S k => replace_from old new k s'
      | O =>
          if String.prefix old s
          then (new ++ replace_from old new (String.length old - 1) s')%string
          else String c (replace_from old new 0 s')
      end
  end.

(** With an empty [old], [str.replace] puts [new] before every
    character and at the end. *)
Fixpoint replace_empty (new : string) (s : string) : string :=
  match s with
  | EmptyString => new
  | String c s' => (new ++ String c (replace_empty new s'))%string
  end.

(** [s.replace(old, new)] *)
Definition py_replace (old new : string) (s : string) : string :=
  match old with
  | EmptyString => replace_empty new s
  | _ => replace_from old new 0 s
  end.

Definition crlf : string := String CR (String LF "").
Definition lf : string := String LF "".

Definition to_win_newlines (s : string) : string :=
  let s := py_replace crlf lf s in
  let s := py_replace lf crlf s in
  s.

(** The two passes of [to_win_newlines]. *)
Definition to_unix (s : string) : string := py_replace crlf lf s.
Definition to_crlf (s : string) : string := py_replace lf crlf s.

(** A lower-case hexadecimal digit. *)
Definition hex_digit (n : Z) : ascii :=
  match n with
  | 0%Z => "0" | 1%Z => "1" | 2%Z => "2" | 3%Z => "3" | 4%Z => "4"
  | 5%Z => "5" | 6%Z => "6" | 7%Z => "7" | 8%Z => "8" | 9%Z => "9"
  | 10%Z => "a" | 11%Z => "b" | 12%Z => "c" | 13%Z => "d" | 14%Z => "e"
  | _ => "f"
  end%char.

(** The values of [ord] on a byte string. *)
Definition is_byte (b : Z) : Prop := (0 <= b < 256)%Z.

(** The value of a hexadecimal digit. *)
Definition hex_val (c : ascii) : Z :=
  match find (fun n => Ascii.eqb (hex_digit n) c)
             [0; 1; 2; 3; 4; 5; 6; 7; 8; 9; 10; 11; 12; 13; 14; 15]%Z with
  | Some n => n
  | None => 0%Z
  end.

(** ["0x%02x" % ord(c)]; [ord] of a character of a byte string is in
    0..255, where the format gives exactly two digits. *)
Definition hex_byte (b : Z) : string :=
  String "0" (String "x"
    (String (hex_digit (b / 16)) (String (hex_digit (b mod 16)) ""))).

(** [sep.join(els)] *)
Fixpoint join (sep : string) (els : list string) : string :=
  match els with
  | [] => ""
  | [x] => x
  | x :: rest => (x ++ sep ++ join sep rest)%string
  end.

Definition data_to_hex (data : list Z) : string :=
  let els := map hex_byte data in
  join ", " els.

(** The non-null struct fields of the record at [a], in field order:
    what an iteration of the flattener appends to the queue. *)
Definition followed_fields (h : heap) (a : addr) : list addr :=
  match h !! a with
  | Some o =>
      match val o with
      | VList fs => List.filter (follows h) fs
      | _ => []
      end
  | None => []
  end.

(** The base offset written in every header comment is the number of
    table bytes before it, counting from [n]. *)
Fixpoint headers_at (n : Z) (ls : list line) : bool :=
  match ls with
  | [] => true
  | HeaderLine _ b :: ls' => (b =? n)%Z && headers_at n ls'
  | DataLine d _ _ _ :: ls' => headers_at (n + Z.of_nat (length d))%Z ls'
  | _ :: ls' => headers_at n ls'
  end.

(** No line feed without a carriage return right before it; [prev] is
    the character before [s]. *)
Fixpoint no_bare_lf (prev : ascii) (s : string) : bool :=
  match s with
  | EmptyString => true
  | String c s' =>
      (if Ascii.eqb c LF then Ascii.eqb prev CR else true)
      && no_bare_lf c s'
  end.

(* ===================================================================== *)
(** ** Auxiliary definitions *)
(* ===================================================================== *)

(** The number of nodes of a queue of trees. *)
Definition forest_size (ts : list tree) : nat := list_sum (map tree_size ts).

(** Two stores hold the same objects up to their offsets. *)
Definition same_shape (h h' : heap) : Prop :=
  forall a, shape <$> (h !! a) = shape <$> (h' !! a).

(** What an iteration computes, as a function of the store it reads. *)
Definition body_result (o : Obj) (r : outcome (list addr)) (off : Z)
    (v : addr) (vals : list addr) : outcome locals :=
  match r with
  | Ok left'' =>
      match struct_def o with
      | Some sd => Ok (Locals left'' (off + c_size sd)%Z (vals ++ [v]))
      | None => Raise AttributeError
      end
  | Raise e => Raise e
  | OutOfFuel => OutOfFuel
  end.

(** Overwriting the offsets chosen by [g]. *)
Definition override (g : addr -> option Z) (h : heap) : heap :=
  map_imap (fun a o =>
    Some (match g a with Some z => with_offset o z | None => o end)) h.

(** The offsets chosen by [g], after a first write of [off] to [v]. *)
Definition after_write (g : addr -> option Z) (v : addr) (off : Z)
    : addr -> option Z :=
  fun a => match g a with
           | Some z => Some z
           | None => if decide (a = v) then Some off else None
           end.

(** The two assertions on the top-level value, as a function of the
    store. *)
Definition top_check (h : heap) (a : addr) : outcome unit :=
  match h !! a with
  | None => Raise NoSuchObject
  | Some o =>
      if is_StructVal o then
        match struct_def o with
        | None => Raise AttributeError
        | Some sd =>
            match vars sd with
            | [] => Raise IndexError
            | v0 :: _ =>
                if String.eqb "version" (name v0) then Ok tt
                else Raise AssertionError
            end
        end
      else Raise AssertionError
  end.

(** The total size of a list of records. *)
Definition sum_sizes (h : heap) (l : list addr) : Z :=
  foldr (fun a s => (c_size_at h a + s)%Z) 0%Z l.

(** The integer a field packs, when there is one. *)
Definition packed_value (fo : Obj) : option Z :=
  if is_struct fo then offset fo
  else match val fo with VInt z => Some z | _ => None end.

(** The field packs without an exception. *)
Definition field_ok (h : heap) (f : addr) : bool :=
  match h !! f with
  | Some fo =>
      match packed_value fo with
      | Some z => fits (pack_format (typ fo)) z
      | None => false
      end
  | None => false
  end.

(** A primitive field bound to an integer outside the range of its
    format. *)
Definition overflows (h : heap) (f : addr) : bool :=
  match h !! f with
  | Some fo =>
      negb (is_struct fo)
      && match val fo with
         | VInt z => negb (fits (pack_format (typ fo)) z)
         | _ => false
         end
  | None => false
  end.

(** The bytes, the packed width and the table line of a field. *)
Definition field_bytes (h : heap) (f : addr) : list Z :=
  match h !! f with
  | Some fo =>
      match packed_value fo with
      | Some z => int_bytes (pack_format (typ fo)) z
      | None => []
      end
  | None => []
  end.

Definition field_width (h : heap) (f : addr) : Z :=
  match h !! f with
  | Some fo => Z.of_nat (calcsize (pack_format (typ fo)))
  | None => 0%Z
  end.

Definition data_line (h : heap) (f : addr) : line :=
  match h !! f with
  | Some fo =>
      DataLine (field_bytes h f) (c_type (typ fo)) (name (typ fo))
        (match packed_value fo with Some z => VInt z | None => VNone end)
  | None => BlankLine
  end.

(** The field objects of the record at [a]. *)
Definition fields_of (h : heap) (a : addr) : list addr :=
  match h !! a with
  | Some o => match val o with VList fs => fs | _ => [] end
  | None => []
  end.

Definition fields_width (h : heap) (fs : list addr) : Z :=
  foldr (fun f s => (field_width h f + s)%Z) 0%Z fs.

(** The bytes and the packed width of a record. *)
Definition record_bytes (h : heap) (a : addr) : list Z :=
  concat (map (field_bytes h) (fields_of h a)).

Definition record_width (h : heap) (a : addr) : Z :=
  fields_width h (fields_of h a).

(** The record is emitted without an exception. *)
Definition record_emits (h : heap) (a : addr) : bool :=
  match h !! a with
  | Some o =>
      is_StructVal o
      && match struct_def o with Some _ => true | None => false end
      && match val o with
         | VList fs => forallb (field_ok h) fs
         | _ => false
         end
  | None => false
  end.

(** The lines the emitter writes for a record, and for a list of
    records starting at offset [off]. *)
Definition record_name (h : heap) (a : addr) : string :=
  match h !! a with
  | Some o => match struct_def o with Some sd => sd_name sd | None => "" end
  | None => ""
  end.

Definition record_lines (h : heap) (a : addr) (off : Z) : list line :=
  [BlankLine; HeaderLine (record_name h a) off]
  ++ map (data_line h) (fields_of h a).

Fixpoint all_lines (h : heap) (vals : list addr) (off : Z) : list line :=
  match vals with
  | [] => []
  | a :: vals' =>
      record_lines h a off ++ all_lines h vals' (off + record_width h a)%Z
  end.

(** [c_size] of the record equals the packed width of its bound
    fields: the definition sums the field widths and the bound values
    have the declared field types. *)
Definition sized_ok (h : heap) (a : addr) : bool :=
  (c_size_at h a =? record_width h a)%Z.

(** Why the emitter raises [e] at field [f]: a struct field without
    offset trips the assertion, any other value that does not pack
    makes [struct.pack] raise. *)
Definition field_fault (h : heap) (f : addr) (e : exn) : Prop :=
  exists fo, h !! f = Some fo
    /\ ((is_struct fo = true /\ offset fo = None /\ e = AssertionError)
        \/ (field_ok h f = false /\ e = StructError)).

(** [b] is a field of [a] that the flattener follows. *)
Definition edge (h : heap) (a b : addr) : Prop :=
  exists o fs, h !! a = Some o /\ val o = VList fs /\ In b fs
    /\ follows h b = true.

(** A node that is reachable from itself can be reached from [a]. *)
Definition reaches_cycle (h : heap) (a : addr) : Prop :=
  exists c, rtc (edge h) a c /\ tc (edge h) c c.

(** The record at [v] passes every check of an iteration. *)
Definition record_ok (h : heap) (v : addr) : bool :=
  match h !! v with
  | Some o =>
      is_StructVal o
      && match struct_def o with Some _ => true | None => false end
      && match val o with
         | VList fs => forallb (in_heap h) fs
         | _ => false
         end
  | None => false
  end.

(** Every non-null struct object of the store is a well-formed
    record. *)
Definition heap_ok (h : heap) : bool :=
  forallb (fun ao => implb (is_struct ao.2 && not_None (val ao.2))
                           (record_ok h ao.1))
          (map_to_list h).

(** The first field of the top-level struct is an unsigned 32-bit field
    called "version". *)
Definition first_field_is_u32_version (h : heap) (a : addr) : bool :=
  match h !! a with
  | Some o =>
      match struct_def o with
      | Some sd =>
          match vars sd with
          | v0 :: _ =>
              String.eqb "version" (name v0)
              && match fmt_char (pack_format v0) with
                 | Fmt_I => true
                 | _ => false
                 end
          | [] => false
          end
      | None => false
      end
  | None => false
  end.

(* ===================================================================== *)
(** ** Trees and level order *)
(* ===================================================================== *)

Section TreeFacts.

Lemma tree_ind (P : tree -> Prop) :
  (forall a cs, Forall P cs -> P (Node a cs)) -> forall t, P t.
Proof.
  intros step. fix IH 1. intros [a cs]. apply step.
  induction cs as [|c cs IHcs]; constructor; [apply IH | exact IHcs].
Qed.

Lemma forest_size_app ts us :
  forest_size (ts ++ us) = forest_size ts + forest_size us.
Proof. unfold forest_size. by rewrite map_app, list_sum_app. Qed.

Lemma forest_size_cons a cs ts :
  forest_size (Node a cs :: ts) = S (forest_size (ts ++ cs)).
Proof. rewrite forest_size_app. unfold forest_size. simpl. lia. Qed.

Lemma zip_levels_nil_r xs : zip_levels xs [] = xs.
Proof. by destruct xs. Qed.

Lemma zip_levels_cons x xs y ys :
  zip_levels (x :: xs) (y :: ys) = (x ++ y) :: zip_levels xs ys.
Proof. done. Qed.

Lemma zip_levels_assoc xs ys zs :
  zip_levels xs (zip_levels ys zs) = zip_levels (zip_levels xs ys) zs.
Proof.
  revert ys zs. induction xs as [|x xs IH]; intros [|y ys] [|z zs]; simpl; try done.
  by rewrite IH, app_assoc.
Qed.

(** Putting a generation in front of one queue of levels is the same as
    emitting it and continuing with the queues swapped. *)
Lemma concat_zip_levels_swap x xs ys :
  concat (zip_levels (x :: xs) ys) = x ++ concat (zip_levels ys xs).
Proof.
  revert x xs. induction ys as [|y ys IH]; intros x xs.
  - done.
  - rewrite zip_levels_cons. destruct xs as [|x' xs].
    + simpl. by rewrite <- app_assoc.
    + rewrite zip_levels_cons, !concat_cons, IH.
      by rewrite <- !app_assoc.
Qed.

Lemma forest_levels_app ts us :
  forest_levels (ts ++ us) = zip_levels (forest_levels ts) (forest_levels us).
Proof.
  unfold forest_levels. induction ts as [|t ts IH]; simpl; [done|].
  by rewrite IH, zip_levels_assoc.
Qed.

(** The queue equation of breadth-first order: the front tree gives its
    root, its children go behind the rest of the queue. *)
Lemma forest_levels_pop a cs ts :
  concat (forest_levels (Node a cs :: ts))
  = a :: concat (forest_levels (ts ++ cs)).
Proof.
  change (forest_levels (Node a cs :: ts))
    with (zip_levels ([a] :: forest_levels cs) (forest_levels ts)).
  by rewrite concat_zip_levels_swap, forest_levels_app.
Qed.

Lemma forest_levels_single t : concat (forest_levels [t]) = level_order t.
Proof. unfold forest_levels, level_order. simpl. by rewrite zip_levels_nil_r. Qed.

Lemma concat_zip_levels_perm xs ys :
  concat (zip_levels xs ys) ≡ₚ concat xs ++ concat ys.
Proof.
  revert ys. induction xs as [|x xs IH]; intros [|y ys]; simpl; try done.
  - by rewrite app_nil_r.
  - rewrite IH. rewrite <- !app_assoc. f_equiv.
    rewrite !app_assoc. f_equiv. apply Permutation_app_comm.
Qed.

Lemma level_order_perm t : level_order t ≡ₚ nodes t.
Proof.
  unfold level_order. induction t as [a cs IH] using tree_ind. simpl.
  constructor. induction IH as [|c cs Hc _ IHcs]; simpl; [done|].
  by rewrite concat_zip_levels_perm, Hc, IHcs.
Qed.

Lemma level_order_length t : length (level_order t) = tree_size t.
Proof.
  rewrite (Permutation_length (level_order_perm t)).
  induction t as [a cs IH] using tree_ind. simpl. f_equal.
  induction IH as [|c cs Hc _ IHcs]; simpl; [done|].
  by rewrite length_app, Hc, IHcs.
Qed.

End TreeFacts.

(* ===================================================================== *)
(** ** Stores that differ in offsets only *)
(* ===================================================================== *)

Section Shapes.

Implicit Types (h : heap) (o : Obj) (a v : addr) (z off : Z).

Lemma shape_with_offset o z : shape (with_offset o z) = shape o.
Proof. done. Qed.

Lemma with_offset_twice o z z' :
  with_offset (with_offset o z) z' = with_offset o z'.
Proof. done. Qed.

Lemma shape_attrs o o' :
  shape o = shape o' ->
  is_StructVal o = is_StructVal o' /\ typ o = typ o' /\ val o = val o'
  /\ is_struct o = is_struct o' /\ struct_def o = struct_def o'.
Proof. destruct o, o'. unfold shape. simpl. intros [= -> -> -> -> ->]. done. Qed.

Lemma same_shape_refl h : same_shape h h.
Proof. done. Qed.

Lemma same_shape_sym h h' : same_shape h h' -> same_shape h' h.
Proof. intros H a. by rewrite H. Qed.

Lemma same_shape_trans h1 h2 h3 :
  same_shape h1 h2 -> same_shape h2 h3 -> same_shape h1 h3.
Proof. intros H1 H2 a. by rewrite H1, H2. Qed.

Lemma same_shape_set h a o z :
  h !! a = Some o -> same_shape h (<[a := with_offset o z]> h).
Proof.
  intros Ha b. destruct (decide (a = b)) as [<-|Hne].
  - by rewrite lookup_insert_eq, Ha.
  - by rewrite lookup_insert_ne.
Qed.

Lemma same_shape_Some h h' a o :
  same_shape h h' -> h !! a = Some o ->
  exists o', h' !! a = Some o' /\ shape o' = shape o.
Proof.
  intros H Ha. specialize (H a). rewrite Ha in H.
  destruct (h' !! a) as [o'|]; simpl in H; [|done].
  exists o'. split; [done|]. congruence.
Qed.

Lemma same_shape_None h h' a :
  same_shape h h' -> h !! a = None -> h' !! a = None.
Proof.
  intros H Ha. specialize (H a). rewrite Ha in H.
  by destruct (h' !! a).
Qed.

Lemma follows_shape h h' f :
  same_shape h h' -> follows h f = follows h' f.
Proof.
  intros H. unfold follows. destruct (h !! f) as [o|] eqn:Hf.
  - destruct (same_shape_Some _ _ _ _ H Hf) as (o' & -> & Ho).
    apply shape_attrs in Ho as (_ & _ & -> & -> & _). done.
  - by rewrite (same_shape_None _ _ _ H Hf).
Qed.

Lemma in_heap_shape h h' f :
  same_shape h h' -> in_heap h f = in_heap h' f.
Proof.
  intros H. unfold in_heap. destruct (h !! f) as [o|] eqn:Hf.
  - by destruct (same_shape_Some _ _ _ _ H Hf) as (o' & -> & Ho).
  - by rewrite (same_shape_None _ _ _ H Hf).
Qed.

Lemma c_size_at_shape h h' a :
  same_shape h h' -> c_size_at h a = c_size_at h' a.
Proof.
  intros H. unfold c_size_at. destruct (h !! a) as [o|] eqn:Hf.
  - destruct (same_shape_Some _ _ _ _ H Hf) as (o' & -> & Ho).
    apply shape_attrs in Ho as (_ & _ & _ & _ & ->). done.
  - by rewrite (same_shape_None _ _ _ H Hf).
Qed.

Lemma first_var_is_version_shape h h' a :
  same_shape h h' -> first_var_is_version h a = first_var_is_version h' a.
Proof.
  intros H. unfold first_var_is_version. destruct (h !! a) as [o|] eqn:Hf.
  - destruct (same_shape_Some _ _ _ _ H Hf) as (o' & -> & Ho).
    apply shape_attrs in Ho as (_ & _ & _ & _ & ->). done.
  - by rewrite (same_shape_None _ _ _ H Hf).
Qed.

Lemma filter_follows_shape h h' fs :
  same_shape h h' -> List.filter (follows h) fs = List.filter (follows h') fs.
Proof.
  intros H. induction fs as [|f fs IH]; simpl; [done|].
  by rewrite (follows_shape _ _ f H), IH.
Qed.

Lemma is_tree_shape h h' t :
  same_shape h h' -> is_tree h t = is_tree h' t.
Proof.
  intros H. induction t as [a cs IH] using tree_ind. simpl.
  assert (forallb (is_tree h) cs = forallb (is_tree h') cs) as ->.
  { induction IH as [|c cs Hc _ IHcs]; simpl; [done|]. by rewrite Hc, IHcs. }
  destruct (h !! a) as [o|] eqn:Ha.
  - destruct (same_shape_Some _ _ _ _ H Ha) as (o' & -> & Ho).
    apply shape_attrs in Ho as (-> & _ & -> & _ & ->).
    destruct (val o) as [| |fs]; try done.
    rewrite (filter_follows_shape _ _ fs H).
    assert (forallb (in_heap h) fs = forallb (in_heap h') fs) as ->; [|done].
    induction fs as [|f fs IHfs]; simpl; [done|].
    by rewrite (in_heap_shape _ _ f H), IHfs.
  - by rewrite (same_shape_None _ _ _ H Ha).
Qed.

End Shapes.

(* ===================================================================== *)
(** ** Running the flattener *)
(* ===================================================================== *)

Ltac unfold_monad :=
  unfold get_obj, set_offset, py_assert, get_attr, iter_val;
  unfold bind, ret, raise.

Section FlattenRuns.

Implicit Types (h : heap) (o : Obj) (a v : addr) (z off : Z)
  (fs left vals : list addr).

(** The field loop reads the store and leaves it as it is. *)
Lemma for_fields_heap fs left h : snd (for_fields fs left h) = h.
Proof.
  revert left. induction fs as [|f fs IH]; intros left; simpl; [done|].
  unfold_monad. destruct (h !! f) as [fo|]; [|done].
  destruct (is_struct fo && not_None (val fo)); [|apply IH].
  destruct (is_StructVal fo); [apply IH|done].
Qed.

Lemma for_fields_shape fs left h h' :
  same_shape h h' -> fst (for_fields fs left h) = fst (for_fields fs left h').
Proof.
  intros H. revert left. induction fs as [|f fs IH]; intros left; simpl; [done|].
  unfold_monad. destruct (h !! f) as [fo|] eqn:Hf.
  - destruct (same_shape_Some _ _ _ _ H Hf) as (fo' & -> & Ho).
    apply shape_attrs in Ho as (-> & _ & -> & -> & _).
    destruct (is_struct fo && not_None (val fo)); [|apply IH].
    destruct (is_StructVal fo); [apply IH|done].
  - by rewrite (same_shape_None _ _ _ H Hf).
Qed.

(** On a store where every field object exists and every followed field
    is a [StructVal], the field loop appends the followed fields, in
    field order, to the queue. *)
Lemma for_fields_follows fs left h :
  (forall f, In f fs -> exists fo, h !! f = Some fo
      /\ (follows h f = true -> is_StructVal fo = true)) ->
  for_fields fs left h = (Ok (left ++ List.filter (follows h) fs), h).
Proof.
  revert left. induction fs as [|f fs IH]; intros left Hfs; simpl.
  - by rewrite app_nil_r.
  - destruct (Hfs f) as (fo & Hf & Hsv); [by left|].
    unfold_monad. unfold follows at 1. unfold follows in Hsv. rewrite Hf in *.
    destruct (is_struct fo && not_None (val fo)).
    + rewrite Hsv by done. simpl.
      rewrite IH by (intros; apply Hfs; by right).
      by rewrite <- app_assoc.
    + apply IH. intros; apply Hfs; by right.
Qed.

Lemma while_left_nil fuel off vals h :
  while_left fuel (Locals [] off vals) h = (Ok vals, h).
Proof. by destruct fuel. Qed.

Lemma while_left_O v left off vals h :
  while_left 0 (Locals (v :: left) off vals) h = (OutOfFuel, h).
Proof. done. Qed.

Lemma while_left_S fuel v left off vals h :
  while_left (S fuel) (Locals (v :: left) off vals) h
  = (let! st' := loop_body v left off vals in while_left fuel st') h.
Proof. done. Qed.

Lemma loop_body_None v left off vals h :
  h !! v = None -> loop_body v left off vals h = (Raise NoSuchObject, h).
Proof. intros Hv. unfold loop_body. unfold_monad. by rewrite Hv. Qed.

Lemma loop_body_Some v left off vals h o :
  h !! v = Some o ->
  loop_body v left off vals h
  = (match val o with
     | VList fs => body_result o (fst (for_fields fs left h)) off v vals
     | _ => Raise TypeError
     end, <[v := with_offset o off]> h).
Proof.
  intros Hv. unfold loop_body. unfold_monad. rewrite Hv.
  rewrite lookup_insert_eq. simpl.
  destruct (val o) as [| |fs]; try done.
  pose proof (for_fields_heap fs left (<[v:=with_offset o off]> h)) as Hh.
  pose proof (for_fields_shape fs left _ _ (same_shape_set h v o off Hv)) as Hs.
  destruct (for_fields fs left (<[v:=with_offset o off]> h)) as [r h'].
  simpl in Hh, Hs. subst h'. rewrite Hs. destruct r; simpl; try done.
  by destruct (struct_def o).
Qed.

Lemma loop_body_shape v left off vals h h' :
  same_shape h h' ->
  fst (loop_body v left off vals h) = fst (loop_body v left off vals h').
Proof.
  intros H. destruct (h !! v) as [o|] eqn:Hv.
  - destruct (same_shape_Some _ _ _ _ H Hv) as (o' & Hv' & Ho).
    rewrite (loop_body_Some _ _ _ _ _ _ Hv), (loop_body_Some _ _ _ _ _ _ Hv').
    simpl. apply shape_attrs in Ho as (_ & _ & -> & _ & Hsd).
    destruct (val o) as [| |fs]; try done.
    rewrite (for_fields_shape fs left h h' H).
    unfold body_result. by rewrite Hsd.
  - rewrite (loop_body_None _ _ _ _ _ Hv).
    by rewrite (loop_body_None _ _ _ _ _ (same_shape_None _ _ _ H Hv)).
Qed.

Lemma loop_body_vals v left off vals h st' :
  fst (loop_body v left off vals h) = Ok st' ->
  l_vals st' = vals ++ [v] /\ exists o, h !! v = Some o.
Proof.
  destruct (h !! v) as [o|] eqn:Hv.
  - rewrite (loop_body_Some _ _ _ _ _ _ Hv). simpl.
    destruct (val o) as [| |fs]; try done.
    unfold body_result. destruct (fst (for_fields fs left h)); try done.
    destruct (struct_def o); [|done]. intros [= <-]. eauto.
  - by rewrite (loop_body_None _ _ _ _ _ Hv).
Qed.

Lemma lookup_override g h a :
  override g h !! a
  = (fun o => match g a with Some z => with_offset o z | None => o end)
      <$> (h !! a).
Proof. unfold override. rewrite map_lookup_imap. by destruct (h !! a). Qed.

Lemma override_none h : override (fun _ => None) h = h.
Proof. apply map_eq. intros a. rewrite lookup_override. by destruct (h !! a). Qed.

Lemma override_set g h v o off :
  h !! v = Some o ->
  override g (<[v := with_offset o off]> h) = override (after_write g v off) h.
Proof.
  intros Hv. apply map_eq. intros a. rewrite !lookup_override.
  unfold after_write. destruct (decide (a = v)) as [->|Hne].
  - rewrite lookup_insert_eq, Hv. simpl. by destruct (g v).
  - rewrite lookup_insert_ne by done. by destruct (g a).
Qed.

Lemma override_idem g h : override g (override g h) = override g h.
Proof.
  apply map_eq. intros a. rewrite !lookup_override.
  destruct (h !! a) as [o|]; simpl; [|done]. by destruct (g a).
Qed.

Lemma same_shape_override g h : same_shape h (override g h).
Proof.
  intros a. rewrite lookup_override.
  destruct (h !! a) as [o|]; simpl; [|done]. by destruct (g a).
Qed.

(** The loop is a function of the shape of the store: on two stores of
    the same shape it gives the same outcome and overwrites the same
    offsets, those of popped records only. *)
Lemma while_left_log fuel st h :
  exists g,
    (forall out, fst (while_left fuel st h) = Ok out ->
       exists popped, out = l_vals st ++ popped
         /\ forall a, is_Some (g a) <-> In a popped)
    /\ (forall a, is_Some (g a) -> is_Some (h !! a))
    /\ forall h2, same_shape h h2 ->
         while_left fuel st h2 = (fst (while_left fuel st h), override g h2).
Proof.
  revert st h. induction fuel as [|fuel IH]; intros [[|v left] off vals] h.
  - exists (fun _ => None). split; [|split; [by intros a []|]].
    + intros out. rewrite while_left_nil. intros [= <-]. exists [].
      split; [by rewrite app_nil_r |]. intros a. split; [by intros [] | done].
    + intros h2 _. by rewrite !while_left_nil, override_none.
  - exists (fun _ => None). split; [|split; [by intros a []|]].
    + intros out. by rewrite while_left_O.
    + intros h2 _. by rewrite !while_left_O, override_none.
  - exists (fun _ => None). split; [|split; [by intros a []|]].
    + intros out. rewrite while_left_nil. intros [= <-]. exists [].
      split; [by rewrite app_nil_r |]. intros a. split; [by intros [] | done].
    + intros h2 _. by rewrite !while_left_nil, override_none.
  - destruct (h !! v) as [o|] eqn:Hv.
    2: { exists (fun _ => None). rewrite while_left_S. unfold bind.
         rewrite (loop_body_None _ _ _ _ _ Hv).
         split; [done|]. split; [by intros a []|].
         intros h2 H2. rewrite while_left_S. unfold bind.
         rewrite (loop_body_None _ _ _ _ _ (same_shape_None _ _ _ H2 Hv)).
         by rewrite override_none. }
    pose proof (loop_body_Some v left off vals h o Hv) as Hb.
    pose proof (loop_body_vals v left off vals h) as Hvals.
    destruct (loop_body v left off vals h) as [r h1] eqn:Hrun.
    injection Hb as Hr Hh1. simpl in Hvals.
    assert (forall h2, same_shape h h2 -> exists o2, h2 !! v = Some o2
      /\ loop_body v left off vals h2 = (r, <[v := with_offset o2 off]> h2)
      /\ same_shape h1 (<[v := with_offset o2 off]> h2)) as Hstep.
    { intros h2 H2. destruct (same_shape_Some _ _ _ _ H2 Hv) as (o2 & Hv2 & Ho).
      exists o2. split; [done|]. split.
      - pose proof (loop_body_shape v left off vals h h2 H2) as Hs.
        rewrite Hrun in Hs. simpl in Hs.
        rewrite (loop_body_Some _ _ _ _ _ _ Hv2) in Hs |- *. simpl in Hs.
        by rewrite <- Hs.
      - rewrite Hh1.
        eapply same_shape_trans; [apply same_shape_sym, same_shape_set, Hv|].
        eapply same_shape_trans; [apply H2|]. by apply same_shape_set. }
    assert (forall a, is_Some (after_write (fun _ => None) v off a) ->
                      is_Some (h !! a)) as Hone.
    { intros a. unfold after_write.
      destruct (decide (a = v)) as [->|]; [by rewrite Hv | by intros []]. }
    assert (forall h2, same_shape h h2 ->
      (loop_body v left off vals h2).2
      = override (after_write (fun _ => None) v off) h2) as Hfail.
    { intros h2 H2. destruct (Hstep h2 H2) as (o2 & Hv2 & Hrun2 & Hsh).
      rewrite Hrun2. simpl.
      by rewrite <- (override_set _ _ _ _ _ Hv2), override_none. }
    destruct r as [st'| |].
    + destruct (IH st' h1) as (g' & Hout & Hdom & Hlog).
      destruct (Hvals st' eq_refl) as (Hst' & _).
      exists (after_write g' v off). rewrite while_left_S. unfold bind.
      rewrite Hrun. split; [|split].
      * intros out Hout'. destruct (Hout out Hout') as (popped & -> & Hin).
        exists (v :: popped). rewrite Hst', <- app_assoc. split; [done|].
        intros a. specialize (Hin a). unfold after_write.
        destruct (g' a) eqn:Hg.
        -- split; [|done]. intros _. right. by apply Hin.
        -- destruct (decide (a = v)) as [->|Hne].
           ++ split; [by left | done].
           ++ split; [by intros [] |]. intros [Heq|Hp]; [done|].
              by apply Hin.
      * intros a. unfold after_write. destruct (g' a) eqn:Hg.
        -- intros _. specialize (Hdom a). rewrite Hg in Hdom.
           destruct Hdom as [x Hx]; [done|]. rewrite Hh1 in Hx.
           destruct (decide (a = v)) as [->|Hne]; [by rewrite Hv|].
           rewrite lookup_insert_ne in Hx by done. by rewrite Hx.
        -- destruct (decide (a = v)) as [->|]; [by rewrite Hv | by intros []].
      * intros h2 H2. destruct (Hstep h2 H2) as (o2 & Hv2 & Hrun2 & Hsh).
        rewrite while_left_S. unfold bind. rewrite Hrun2.
        rewrite (Hlog _ Hsh). by rewrite (override_set _ _ _ _ _ Hv2).
    + exists (after_write (fun _ => None) v off). rewrite while_left_S.
      unfold bind. rewrite Hrun. split; [done|]. split; [done|].
      intros h2 H2. specialize (Hfail h2 H2).
      destruct (Hstep h2 H2) as (o2 & Hv2 & Hrun2 & Hsh).
      rewrite while_left_S. unfold bind. rewrite Hrun2 in Hfail |- *.
      simpl in Hfail. by rewrite Hfail.
    + exists (after_write (fun _ => None) v off). rewrite while_left_S.
      unfold bind. rewrite Hrun. split; [done|]. split; [done|].
      intros h2 H2. specialize (Hfail h2 H2).
      destruct (Hstep h2 H2) as (o2 & Hv2 & Hrun2 & Hsh).
      rewrite while_left_S. unfold bind. rewrite Hrun2 in Hfail |- *.
      simpl in Hfail. by rewrite Hfail.
Qed.

End FlattenRuns.

(* ===================================================================== *)
(** ** The checks before the loop *)
(* ===================================================================== *)

Section TopLevel.

Implicit Types (h : heap) (o : Obj) (a v : addr).

Lemma flatten_unfold fuel a h :
  flatten_values_tree fuel a h
  = match top_check h a with
    | Ok _ => while_left fuel (Locals [a] 0%Z []) h
    | Raise e => (Raise e, h)
    | OutOfFuel => (OutOfFuel, h)
    end.
Proof.
  unfold flatten_values_tree, top_check, first_var_name. unfold_monad.
  destruct (h !! a) as [o|]; [|done].
  destruct (is_StructVal o); [|done].
  destruct (struct_def o) as [sd|]; [|done].
  destruct (vars sd) as [|v0 ?]; [done|].
  by destruct (String.eqb "version" (name v0)).
Qed.

Lemma top_check_shape h h' a :
  same_shape h h' -> top_check h a = top_check h' a.
Proof.
  intros H. unfold top_check. destruct (h !! a) as [o|] eqn:Ha.
  - destruct (same_shape_Some _ _ _ _ H Ha) as (o' & -> & Ho).
    by apply shape_attrs in Ho as (-> & _ & _ & _ & ->).
  - by rewrite (same_shape_None _ _ _ H Ha).
Qed.

Lemma top_check_Ok h a :
  top_check h a = Ok tt <->
  (exists o, h !! a = Some o /\ is_StructVal o = true)
  /\ first_var_is_version h a = true.
Proof.
  unfold top_check, first_var_is_version.
  destruct (h !! a) as [o|]; [|split; [done | by intros [(? & ? & _) _]]].
  destruct (is_StructVal o) eqn:Hsv.
  - destruct (struct_def o) as [sd|]; [|split; [done | by intros [_ ?]]].
    destruct (vars sd) as [|v0 ?]; [split; [done | by intros [_ ?]]|].
    destruct (String.eqb "version" (name v0)).
    + split; [|done]. intros _. split; [|done]. by exists o.
    + split; [done | by intros [_ ?]].
  - split; [done|]. intros [(o' & [= <-] & ?) _]. congruence.
Qed.

Lemma top_check_fails h a :
  first_var_is_version h a = false -> exists e, top_check h a = Raise e.
Proof.
  unfold top_check, first_var_is_version.
  destruct (h !! a) as [o|]; [|by eexists].
  destruct (is_StructVal o); [|by eexists].
  destruct (struct_def o) as [sd|]; [|by eexists].
  destruct (vars sd) as [|v0 ?]; [by eexists|].
  destruct (String.eqb "version" (name v0)); [done | by eexists].
Qed.

(** Flattening as a function of the shape of the store. *)
Lemma flatten_log fuel root h :
  exists g,
    (forall out, fst (flatten_values_tree fuel root h) = Ok out ->
       forall a, is_Some (g a) <-> In a out)
    /\ (forall a, is_Some (g a) -> is_Some (h !! a))
    /\ forall h2, same_shape h h2 ->
         flatten_values_tree fuel root h2
         = (fst (flatten_values_tree fuel root h), override g h2).
Proof.
  destruct (top_check h root) as [[]| |] eqn:Htop.
  - destruct (while_left_log fuel (Locals [root] 0%Z []) h) as (g & Hout & Hdom & Hlog).
    exists g. rewrite flatten_unfold, Htop. split; [|split; [done|]].
    + intros out Ho. destruct (Hout out Ho) as (popped & -> & Hin). done.
    + intros h2 H2. rewrite flatten_unfold, <- (top_check_shape _ _ _ H2), Htop.
      by apply Hlog.
  - exists (fun _ => None). rewrite flatten_unfold, Htop.
    split; [done|]. split; [by intros a []|].
    intros h2 H2. rewrite flatten_unfold, <- (top_check_shape _ _ _ H2), Htop.
    by rewrite override_none.
  - exists (fun _ => None). rewrite flatten_unfold, Htop.
    split; [done|]. split; [by intros a []|].
    intros h2 H2. rewrite flatten_unfold, <- (top_check_shape _ _ _ H2), Htop.
    by rewrite override_none.
Qed.

End TopLevel.

(* ===================================================================== *)
(** ** Flattening a tree *)
(* ===================================================================== *)

Section FlattenTree.

Implicit Types (h : heap) (o : Obj) (a v : addr) (t : tree)
  (q cs : list tree).

Lemma is_tree_node h a cs :
  is_tree h (Node a cs) = true ->
  exists o sd fs,
    h !! a = Some o /\ is_StructVal o = true /\ struct_def o = Some sd
    /\ val o = VList fs
    /\ (forall f, In f fs -> in_heap h f = true)
    /\ List.filter (follows h) fs = map root cs
    /\ Forall (fun c => is_tree h c = true) cs.
Proof.
  simpl. destruct (h !! a) as [o|]; [|done].
  destruct (is_StructVal o) eqn:Hsv; [|done].
  destruct (struct_def o) as [sd|] eqn:Hsd; [|done].
  destruct (val o) as [| |fs] eqn:Hval; try done. simpl.
  intros H. apply andb_prop in H as [H Hcs]. apply andb_prop in H as [Hin Hf].
  exists o, sd, fs. split; [done|]. split; [done|]. split; [done|].
  split; [done|]. split; [|split].
  - intros f Hf'. by apply (proj1 (forallb_forall _ _) Hin).
  - by apply bool_decide_eq_true in Hf.
  - apply Forall_forall. intros c Hc. apply (proj1 (forallb_forall _ _) Hcs).
    by apply list_elem_of_In.
Qed.

Lemma is_tree_root h t :
  is_tree h t = true ->
  exists o, h !! root t = Some o /\ is_StructVal o = true.
Proof.
  destruct t as [a cs]. intros H.
  destruct (is_tree_node _ _ _ H) as (o & sd & fs & Ha & Hsv & _). eauto.
Qed.

Lemma Forall_is_tree_shape h h' q :
  same_shape h h' ->
  Forall (fun c => is_tree h c = true) q ->
  Forall (fun c => is_tree h' c = true) q.
Proof.
  intros H Hq. eapply Forall_impl; [exact Hq|].
  intros c Hc. by rewrite <- (is_tree_shape _ _ c H).
Qed.

(** One iteration on the root of a tree: the children go to the back of
    the queue, the offset advances by the record's size. *)
Lemma loop_body_tree h a cs left off vals :
  is_tree h (Node a cs) = true ->
  exists o, h !! a = Some o
    /\ loop_body a left off vals h
       = (Ok (Locals (left ++ map root cs) (off + c_size_at h a)%Z (vals ++ [a])),
          <[a := with_offset o off]> h).
Proof.
  intros H. destruct (is_tree_node _ _ _ H) as (o & sd & fs & Ha & Hsv & Hsd & Hval & Hin & Hf & Hcs).
  exists o. split; [done|]. rewrite (loop_body_Some _ _ _ _ _ _ Ha), Hval.
  rewrite for_fields_follows.
  - simpl. unfold c_size_at. by rewrite Ha, Hsd, Hf.
  - intros f Hf'. specialize (Hin f Hf'). unfold in_heap in Hin.
    destruct (h !! f) as [fo|] eqn:Hfo; [|done]. exists fo. split; [done|].
    intros Hfol.
    assert (In f (map root cs)) as Hr.
    { rewrite <- Hf. apply filter_In. done. }
    apply in_map_iff in Hr as (c & <- & Hc).
    rewrite Forall_forall in Hcs. apply list_elem_of_In in Hc.
    destruct (is_tree_root _ _ (Hcs c Hc)) as (o' & Ho' & Hsv').
    congruence.
Qed.

Lemma forest_levels_length q :
  length (concat (forest_levels q)) = forest_size q.
Proof.
  remember (forest_size q) as n eqn:Hn. revert q Hn.
  induction n as [n IH] using lt_wf_ind. intros [|[a cs] q] ->; [done|].
  rewrite forest_levels_pop, forest_size_cons. simpl. f_equal.
  eapply IH; [|done]. rewrite forest_size_cons. lia.
Qed.

(** The loop on a queue of trees: after [fuel] iterations the first
    [fuel] records of the breadth-first order have their cumulative
    offsets; the loop ends when the fuel covers the whole forest. *)
Lemma while_left_forest fuel q h off vals :
  Forall (fun t => is_tree h t = true) q ->
  while_left fuel (Locals (map root q) off vals) h
  = (if decide (forest_size q <= fuel)
     then Ok (vals ++ concat (forest_levels q)) else OutOfFuel,
     assign_offsets (take fuel (concat (forest_levels q))) off h).
Proof.
  revert q h off vals. induction fuel as [|fuel IH]; intros q h off vals Hq.
  - destruct q as [|[a cs] q].
    + simpl. by rewrite app_nil_r.
    + rewrite decide_False by (rewrite forest_size_cons; lia). done.
  - destruct q as [|[a cs] q].
    + simpl. by rewrite app_nil_r.
    + apply Forall_cons in Hq as [Ha Hq].
      destruct (loop_body_tree h a cs (map root q) off vals Ha) as (o & Hoa & Hrun).
      change (map root (Node a cs :: q)) with (a :: map root q).
      rewrite while_left_S. unfold bind. rewrite Hrun.
      rewrite <- map_app. rewrite IH.
      * rewrite forest_levels_pop, forest_size_cons. simpl.
        rewrite Hoa. f_equal.
        destruct (decide (forest_size (q ++ cs) <= fuel)).
        -- rewrite decide_True by lia. by rewrite <- app_assoc.
        -- rewrite decide_False by lia. done.
      * apply (Forall_is_tree_shape h); [by apply same_shape_set|].
        apply Forall_app. split; [done|].
        by destruct (is_tree_node _ _ _ Ha) as (?&?&?&?&?&?&?&?&?&?).
Qed.

Lemma forest_size_single t : forest_size [t] = tree_size t.
Proof. unfold forest_size. simpl. lia. Qed.

(** Flattening a tree whose top-level struct passes the version check. *)
Lemma flatten_tree_run fuel h t :
  is_tree h t = true ->
  first_var_is_version h (root t) = true ->
  flatten_values_tree fuel (root t) h
  = (if decide (tree_size t <= fuel) then Ok (level_order t) else OutOfFuel,
     assign_offsets (take fuel (level_order t)) 0 h).
Proof.
  intros Ht Hv. rewrite flatten_unfold.
  assert (top_check h (root t) = Ok tt) as ->.
  { apply top_check_Ok. split; [|done]. by apply is_tree_root. }
  change [root t] with (map root [t]). rewrite while_left_forest.
  - by rewrite forest_levels_single, forest_size_single.
  - by constructor.
Qed.

End FlattenTree.

(* ===================================================================== *)
(** ** Cumulative offsets *)
(* ===================================================================== *)

Section Offsets.

Implicit Types (h : heap) (o : Obj) (a v : addr) (t : tree)
  (l : list addr) (off : Z).

Lemma sum_sizes_shape h h' l :
  same_shape h h' -> sum_sizes h l = sum_sizes h' l.
Proof.
  intros H. induction l as [|a l IH]; simpl; [done|].
  by rewrite IH, (c_size_at_shape _ _ a H).
Qed.

Lemma sum_sizes_app h l1 l2 :
  sum_sizes h (l1 ++ l2) = (sum_sizes h l1 + sum_sizes h l2)%Z.
Proof. induction l1 as [|a l1 IH]; simpl; [done|]. rewrite IH. lia. Qed.

Lemma sum_sizes_perm h l1 l2 :
  l1 ≡ₚ l2 -> sum_sizes h l1 = sum_sizes h l2.
Proof. induction 1; simpl; lia. Qed.

Lemma sum_sizes_take_S h l i a :
  l !! i = Some a ->
  sum_sizes h (take (S i) l) = (sum_sizes h (take i l) + c_size_at h a)%Z.
Proof.
  intros Hi. rewrite (take_S_r _ _ _ Hi), sum_sizes_app. simpl. lia.
Qed.

Lemma assign_offsets_shape l off h : same_shape h (assign_offsets l off h).
Proof.
  revert off h. induction l as [|a l IH]; intros off h; simpl; [done|].
  destruct (h !! a) as [o|] eqn:Ha; [|done].
  eapply same_shape_trans; [by apply same_shape_set|]. apply IH.
Qed.

Lemma assign_offsets_other l off h a :
  ~ In a l -> assign_offsets l off h !! a = h !! a.
Proof.
  revert off h. induction l as [|b l IH]; intros off h Hin; simpl; [done|].
  destruct (h !! b) as [o|] eqn:Hb; [|done].
  rewrite IH by (intros ?; apply Hin; by right).
  apply lookup_insert_ne. intros ->. apply Hin. by left.
Qed.

(** Without repetitions, the [i]-th record ends up at the start offset
    plus the sizes of the records before it. *)
Lemma assign_offsets_lookup l off h i a :
  NoDup l ->
  (forall b, In b l -> is_Some (h !! b)) ->
  l !! i = Some a ->
  offset_at (assign_offsets l off h) a
  = Some (off + sum_sizes h (take i l))%Z.
Proof.
  revert off h i. induction l as [|b l IH]; intros off h i Hnd Hdom Hi; [done|].
  apply NoDup_cons in Hnd as [Hb Hnd]. simpl.
  destruct (Hdom b) as [o Hbo]; [by left|]. rewrite Hbo.
  pose proof (same_shape_set h b o off Hbo) as Hsh.
  destruct i as [|i]; simpl in Hi.
  - injection Hi as <-. unfold offset_at.
    rewrite assign_offsets_other by (by rewrite <- list_elem_of_In).
    rewrite lookup_insert_eq. simpl. f_equal. lia.
  - rewrite (IH _ _ i); [|done| |done].
    + simpl. rewrite <- (sum_sizes_shape _ _ _ Hsh). f_equal. lia.
    + intros c Hc. destruct (Hdom c) as [oc Hoc]; [by right|].
      destruct (decide (b = c)) as [->|Hne].
      * by rewrite lookup_insert_eq.
      * rewrite lookup_insert_ne by done. by rewrite Hoc.
Qed.

Lemma is_tree_nodes h t a :
  is_tree h t = true -> In a (nodes t) -> is_Some (h !! a).
Proof.
  revert a. induction t as [b cs IH] using tree_ind. intros a Ht Ha.
  destruct (is_tree_node _ _ _ Ht) as (o & sd & fs & Hb & _ & _ & _ & _ & _ & Hcs).
  simpl in Ha. destruct Ha as [<-|Ha]; [by rewrite Hb|].
  apply in_concat in Ha as (ns & Hns & Ha).
  apply in_map_iff in Hns as (c & <- & Hc).
  rewrite Forall_forall in IH, Hcs. apply list_elem_of_In in Hc.
  by apply (IH c Hc a (Hcs c Hc)).
Qed.

Lemma level_order_head t : exists rest, level_order t = root t :: rest.
Proof. destruct t as [a cs]. unfold level_order. simpl. eauto. Qed.

Lemma level_order_NoDup t : NoDup (nodes t) -> NoDup (level_order t).
Proof.
  intros H. by rewrite level_order_perm.
Qed.

Lemma level_order_in_heap h t a :
  is_tree h t = true -> In a (level_order t) -> is_Some (h !! a).
Proof.
  intros Ht Ha. apply (is_tree_nodes h t a Ht).
  apply list_elem_of_In. rewrite <- (level_order_perm t).
  by apply list_elem_of_In.
Qed.

End Offsets.

(* ===================================================================== *)
(** ** Running the emitter *)
(* ===================================================================== *)

Section EmitRuns.

Implicit Types (h : heap) (o fo : Obj) (a v f : addr)
  (fs vals : list addr) (lines : list line) (size off : Z).

Lemma le_bytes_length n z : length (le_bytes n z) = n.
Proof. revert z. induction n as [|n IH]; intros z; simpl; [done|]. by rewrite IH. Qed.

Lemma int_bytes_length p z : length (int_bytes p z) = calcsize p.
Proof.
  unfold int_bytes. destruct (fmt_order p).
  - apply le_bytes_length.
  - by rewrite length_rev, le_bytes_length.
Qed.

Lemma field_bytes_length h f :
  field_ok h f = true -> Z.of_nat (length (field_bytes h f)) = field_width h f.
Proof.
  unfold field_ok, field_bytes, field_width.
  destruct (h !! f) as [fo|]; [|done].
  destruct (packed_value fo); [|done]. by rewrite int_bytes_length.
Qed.

Lemma for_fields_data_cons_ok h f fs lines size :
  field_ok h f = true ->
  for_fields_data (f :: fs) lines size h
  = for_fields_data fs (lines ++ [data_line h f]) (size + field_width h f)%Z h.
Proof.
  intros Hok. pose proof (field_bytes_length h f Hok) as Hlen. revert Hok Hlen.
  unfold field_ok, data_line, field_width, field_bytes, packed_value. simpl.
  unfold field_value, struct_pack. unfold_monad.
  destruct (h !! f) as [fo|]; [|done].
  destruct (is_struct fo).
  - destruct (offset fo) as [z|]; [|done]. intros -> <-. done.
  - destruct (val fo) as [|z|]; try done. intros -> <-. done.
Qed.

Lemma for_fields_data_cons_bad h f fs lines size :
  field_ok h f = false ->
  exists e, for_fields_data (f :: fs) lines size h = (Raise e, h).
Proof.
  unfold field_ok, packed_value. simpl.
  unfold field_value, struct_pack. unfold_monad.
  destruct (h !! f) as [fo|]; [|by eexists].
  destruct (is_struct fo).
  - destruct (offset fo) as [z|]; [|by eexists]. intros ->. by eexists.
  - destruct (val fo) as [|z|]; try by eexists. intros ->. by eexists.
Qed.

Lemma for_fields_data_cons_overflow h f fs lines size :
  overflows h f = true ->
  for_fields_data (f :: fs) lines size h = (Raise StructError, h).
Proof.
  unfold overflows. simpl. unfold field_value, struct_pack. unfold_monad.
  destruct (h !! f) as [fo|]; [|done].
  destruct (is_struct fo); [done|]. simpl.
  destruct (val fo) as [|z|]; try done.
  by destruct (fits (pack_format (typ fo)) z).
Qed.

Lemma overflows_not_ok h f : overflows h f = true -> field_ok h f = false.
Proof.
  unfold overflows, field_ok, packed_value.
  destruct (h !! f) as [fo|]; [|done].
  destruct (is_struct fo); [done|]. simpl.
  destruct (val fo) as [|z|]; try done.
  by destruct (fits (pack_format (typ fo)) z).
Qed.

(** The field loop of the emitter: all lines, or the exception of the
    first field that does not pack. *)
Lemma for_fields_data_run h fs lines size :
  exists e,
    for_fields_data fs lines size h
    = (if forallb (field_ok h) fs
       then Ok (lines ++ map (data_line h) fs, (size + fields_width h fs)%Z)
       else Raise e, h).
Proof.
  revert lines size. induction fs as [|f fs IH]; intros lines size.
  - exists StructError. simpl. unfold ret. by rewrite app_nil_r, Z.add_0_r.
  - destruct (field_ok h f) eqn:Hf.
    + destruct (IH (lines ++ [data_line h f]) (size + field_width h f)%Z) as [e He].
      exists e. rewrite (for_fields_data_cons_ok _ _ _ _ _ Hf), He.
      cbn [forallb map fields_width foldr]. rewrite Hf. cbn [andb].
      by rewrite <- app_assoc, Z.add_assoc.
    + destruct (for_fields_data_cons_bad h f fs lines size Hf) as [e He].
      exists e. rewrite He. cbn [forallb]. by rewrite Hf.
Qed.

Lemma for_fields_data_overflow h pre f post lines size :
  forallb (field_ok h) pre = true -> overflows h f = true ->
  for_fields_data (pre ++ f :: post) lines size h = (Raise StructError, h).
Proof.
  revert lines size. induction pre as [|p pre IH]; intros lines size Hpre Hf.
  - by apply for_fields_data_cons_overflow.
  - cbn [forallb] in Hpre. apply andb_prop in Hpre as [Hp Hpre].
    rewrite <- app_comm_cons, (for_fields_data_cons_ok _ _ _ _ _ Hp). by apply IH.
Qed.

Lemma get_cpp_data_run h a off :
  exists e,
    get_cpp_data_for_struct_val a off h
    = (if record_emits h a
       then Ok (record_lines h a off, record_width h a)
       else Raise e, h).
Proof.
  unfold get_cpp_data_for_struct_val, record_emits, record_lines, record_width,
    record_name, fields_of.
  unfold_monad. destruct (h !! a) as [o|]; [|by eexists].
  destruct (is_StructVal o); [|by eexists].
  destruct (struct_def o) as [sd|]; [|by eexists].
  destruct (val o) as [| |fs]; try by eexists.
  destruct (for_fields_data_run h fs [BlankLine; HeaderLine (sd_name sd) off] 0%Z)
    as [e He].
  exists e. simpl. rewrite He. by destruct (forallb (field_ok h) fs).
Qed.

Lemma for_vals_run h vals lines off :
  exists e,
    for_vals vals lines off h
    = (if forallb (record_emits h) vals
       then Ok (lines ++ all_lines h vals off) else Raise e, h).
Proof.
  revert lines off. induction vals as [|a vals IH]; intros lines off.
  - exists StructError. simpl. unfold ret. by rewrite app_nil_r.
  - destruct (get_cpp_data_run h a off) as [e He].
    cbn [for_vals forallb all_lines]. unfold bind. rewrite He.
    destruct (record_emits h a).
    + destruct (IH (lines ++ record_lines h a off) (off + record_width h a)%Z)
        as [e' He'].
      exists e'. cbn [fst snd andb]. rewrite He'.
      destruct (forallb (record_emits h) vals); [|done].
      by rewrite <- app_assoc.
    + by exists e.
Qed.

Lemma gen_cpp_data_run h v0 vals :
  exists e,
    gen_cpp_data_for_struct_values (v0 :: vals) h
    = (if forallb (record_emits h) (v0 :: vals)
       then Ok ([ArrayOpen (record_name h v0)] ++ all_lines h (v0 :: vals) 0
                ++ [ArrayClose])
       else Raise e, h).
Proof.
  destruct (for_vals_run h (v0 :: vals) [ArrayOpen (record_name h v0)] 0%Z)
    as [e He].
  unfold gen_cpp_data_for_struct_values. revert He.
  cbn [forallb]. unfold record_emits at 1 3. unfold record_name. unfold_monad.
  destruct (h !! v0) as [o|]; [|by eexists].
  destruct (is_StructVal o); [|by eexists].
  destruct (struct_def o) as [sd|]; [|by eexists].
  intros ->. exists e. cbn [andb].
  destruct (match val o with VList fs => forallb (field_ok h) fs | _ => false end
            && forallb (record_emits h) vals); [|done].
  by rewrite <- app_assoc.
Qed.

(** The emitter never writes to the store. *)
Lemma gen_cpp_data_heap h vals :
  snd (gen_cpp_data_for_struct_values vals h) = h.
Proof.
  destruct vals as [|v0 vals]; [done|].
  destruct (gen_cpp_data_run h v0 vals) as [e ->]. done.
Qed.

Lemma data_bytes_app l1 l2 : data_bytes (l1 ++ l2) = data_bytes l1 ++ data_bytes l2.
Proof. unfold data_bytes. by rewrite map_app, concat_app. Qed.

Lemma record_lines_bytes h a off :
  forallb (field_ok h) (fields_of h a) = true ->
  data_bytes (record_lines h a off) = record_bytes h a.
Proof.
  unfold record_lines, record_bytes. rewrite data_bytes_app.
  change (data_bytes [BlankLine; HeaderLine (record_name h a) off]) with (@nil Z).
  simpl. generalize (fields_of h a). intros fs Hfs.
  induction fs as [|f fs IH]; [done|].
  cbn [forallb] in Hfs. apply andb_prop in Hfs as [Hf Hfs].
  cbn [map concat]. rewrite <- IH by done.
  change (data_bytes (data_line h f :: map (data_line h) fs))
    with (line_bytes (data_line h f) ++ data_bytes (map (data_line h) fs)).
  f_equal. unfold data_line, field_ok in *.
  by destruct (h !! f).
Qed.

Lemma record_emits_fields h a :
  record_emits h a = true -> forallb (field_ok h) (fields_of h a) = true.
Proof.
  unfold record_emits, fields_of. destruct (h !! a) as [o|]; [|done].
  destruct (val o); try by rewrite ?andb_false_r.
  intros H. by apply andb_prop in H as [_ H].
Qed.

Lemma record_bytes_length h a :
  record_emits h a = true ->
  Z.of_nat (length (record_bytes h a)) = record_width h a.
Proof.
  intros H. apply record_emits_fields in H. revert H.
  unfold record_bytes, record_width. generalize (fields_of h a). intros fs Hfs.
  induction fs as [|f fs IH]; [done|].
  cbn [forallb] in Hfs. apply andb_prop in Hfs as [Hf Hfs].
  cbn [map concat fields_width foldr]. rewrite length_app, Nat2Z.inj_add.
  rewrite (field_bytes_length _ _ Hf). fold (fields_width h fs).
  rewrite IH by done. done.
Qed.

Lemma all_lines_bytes h vals off :
  forallb (record_emits h) vals = true ->
  data_bytes (all_lines h vals off) = concat (map (record_bytes h) vals).
Proof.
  revert off. induction vals as [|a vals IH]; intros off Hv; [done|].
  cbn [forallb] in Hv. apply andb_prop in Hv as [Ha Hv].
  cbn [all_lines map concat]. rewrite data_bytes_app, IH by done.
  by rewrite record_lines_bytes by (by apply record_emits_fields).
Qed.

Lemma concat_record_bytes_length h vals :
  forallb (record_emits h) vals = true ->
  Z.of_nat (length (concat (map (record_bytes h) vals)))
  = foldr (fun a s => (record_width h a + s)%Z) 0%Z vals.
Proof.
  induction vals as [|a vals IH]; intros Hv; [done|].
  cbn [forallb] in Hv. apply andb_prop in Hv as [Ha Hv].
  cbn [map concat foldr]. rewrite length_app, Nat2Z.inj_add.
  by rewrite (record_bytes_length _ _ Ha), IH.
Qed.

End EmitRuns.

(* ===================================================================== *)
(** ** Cyclic stores *)
(* ===================================================================== *)

Section Cycles.

Implicit Types (h : heap) (o : Obj) (a b c v : addr)
  (fs left vals : list addr).

Lemma heap_ok_follows h a :
  heap_ok h = true -> follows h a = true -> record_ok h a = true.
Proof.
  unfold heap_ok, follows. intros Hok Hf.
  destruct (h !! a) as [o|] eqn:Ha; [|done].
  pose proof (proj1 (forallb_forall _ _) Hok (a, o)) as H. simpl in H.
  rewrite Hf in H. apply H. apply list_elem_of_In.
  by apply elem_of_map_to_list.
Qed.

Lemma edge_shape h h' a b : same_shape h h' -> edge h a b -> edge h' a b.
Proof.
  intros H (o & fs & Ha & Hval & Hin & Hf).
  destruct (same_shape_Some _ _ _ _ H Ha) as (o' & Ha' & Ho).
  apply shape_attrs in Ho as (_ & _ & Hv & _ & _).
  exists o', fs. rewrite Hv, <- (follows_shape _ _ b H). done.
Qed.

Lemma reaches_cycle_shape h h' a :
  same_shape h h' -> reaches_cycle h a -> reaches_cycle h' a.
Proof.
  intros H (c & Hr & Hc). exists c. split.
  - apply (rtc_congruence (R := edge h) (fun x => x) (edge h')); [|exact Hr].
    intros x y. by apply edge_shape.
  - apply (tc_congruence (R := edge h) (fun x => x) (edge h')); [|exact Hc].
    intros x y. by apply edge_shape.
Qed.

Lemma reaches_cycle_step h a :
  reaches_cycle h a -> exists b, edge h a b /\ reaches_cycle h b.
Proof.
  intros (c & Hr & Hc). destruct Hr as [a|a b c Hab Hbc].
  - inversion Hc as [? y Hay|? y ? Hay Hya]; subst.
    + exists a. split; [done|]. by exists a.
    + exists y. split; [done|]. exists a. split; [by apply tc_rtc | done].
  - exists b. split; [done|]. by exists c.
Qed.

Lemma record_ok_shape h h' v :
  same_shape h h' -> record_ok h v = record_ok h' v.
Proof.
  intros H. unfold record_ok. destruct (h !! v) as [o|] eqn:Hv.
  - destruct (same_shape_Some _ _ _ _ H Hv) as (o' & -> & Ho).
    apply shape_attrs in Ho as (-> & _ & -> & _ & ->).
    destruct (val o) as [| |fs]; try done.
    assert (forallb (in_heap h) fs = forallb (in_heap h') fs) as ->; [|done].
    induction fs as [|f fs IHfs]; simpl; [done|].
    by rewrite (in_heap_shape _ _ f H), IHfs.
  - by rewrite (same_shape_None _ _ _ H Hv).
Qed.

(** A successful field loop has appended the followed fields. *)
Lemma for_fields_Ok fs left h l :
  fst (for_fields fs left h) = Ok l ->
  l = left ++ List.filter (follows h) fs.
Proof.
  revert left. induction fs as [|f fs IH]; intros left; simpl.
  - intros [= <-]. by rewrite app_nil_r.
  - unfold_monad. unfold follows at 1. destruct (h !! f) as [fo|]; [|done].
    destruct (is_struct fo && not_None (val fo)).
    + destruct (is_StructVal fo); [|done]. intros H. apply IH in H.
      by rewrite <- app_assoc in H.
    + apply IH.
Qed.

Lemma loop_body_Ok v left off vals h st' :
  fst (loop_body v left off vals h) = Ok st' ->
  exists o fs, h !! v = Some o /\ val o = VList fs
    /\ l_left st' = left ++ List.filter (follows h) fs.
Proof.
  destruct (h !! v) as [o|] eqn:Hv.
  - rewrite (loop_body_Some _ _ _ _ _ _ Hv). simpl.
    destruct (val o) as [| |fs] eqn:Hval; try done.
    unfold body_result.
    destruct (fst (for_fields fs left h)) as [l| |] eqn:Hl; try done.
    destruct (struct_def o); [|done]. intros [= <-].
    exists o, fs. split; [done|]. split; [done|]. by apply for_fields_Ok.
  - by rewrite (loop_body_None _ _ _ _ _ Hv).
Qed.

Lemma heap_ok_shape h h' :
  same_shape h h' ->
  (forall a, follows h a = true -> record_ok h a = true) ->
  forall a, follows h' a = true -> record_ok h' a = true.
Proof.
  intros H Hok a. rewrite <- (follows_shape _ _ a H), <- (record_ok_shape _ _ a H).
  apply Hok.
Qed.

(** While a node that reaches a cycle is queued, the loop cannot end
    with a result: popping that node queues another one. *)
Lemma while_left_cycle_not_Ok fuel st h out :
  (exists a, In a (l_left st) /\ reaches_cycle h a) ->
  fst (while_left fuel st h) <> Ok out.
Proof.
  revert st h. induction fuel as [|fuel IH]; intros [[|v left] off vals] h (a & Ha & Hc);
    try done.
  rewrite while_left_S. unfold bind.
  pose proof (loop_body_Ok v left off vals h) as Hinv.
  destruct (h !! v) as [o|] eqn:Hv.
  2: { by rewrite (loop_body_None _ _ _ _ _ Hv). }
  pose proof (loop_body_Some v left off vals h o Hv) as Hb.
  destruct (loop_body v left off vals h) as [[st'| |] h1]; try done.
  injection Hb as _ Hh1. simpl in Hinv.
  destruct (Hinv st' eq_refl) as (o' & fs & Hv' & Hval & Hleft).
  assert (same_shape h h1) as Hsh by (rewrite Hh1; by apply same_shape_set).
  apply IH. simpl in Ha. destruct Ha as [<-|Ha].
  - destruct (reaches_cycle_step h v Hc) as (b & (o2 & fs2 & Hv2 & Hval2 & Hin & Hf) & Hb).
    exists b. split; [|by apply (reaches_cycle_shape h)].
    rewrite Hleft. apply in_or_app. right. apply filter_In.
    assert (fs2 = fs) as -> by congruence. done.
  - exists a. split; [|by apply (reaches_cycle_shape h)].
    rewrite Hleft. apply in_or_app. by left.
Qed.

(** On a well-formed store the loop with such a queue neither ends nor
    raises. *)
Lemma while_left_cycle fuel st h :
  (forall a, follows h a = true -> record_ok h a = true) ->
  (forall v, In v (l_left st) -> record_ok h v = true) ->
  (exists a, In a (l_left st) /\ reaches_cycle h a) ->
  fst (while_left fuel st h) = OutOfFuel.
Proof.
  revert st h. induction fuel as [|fuel IH];
    intros [[|v left] off vals] h Hok Hrec (a & Ha & Hc); try done.
  rewrite while_left_S. unfold bind.
  assert (exists o fs, h !! v = Some o /\ val o = VList fs
    /\ loop_body v left off vals h
       = (Ok (Locals (left ++ List.filter (follows h) fs)
                     (off + c_size_at h v)%Z (vals ++ [v])),
          <[v := with_offset o off]> h)) as (o & fs & Hv & Hval & Hrun).
  { specialize (Hrec v (or_introl eq_refl)). unfold record_ok in Hrec.
    destruct (h !! v) as [o|] eqn:Ho; [|done].
    destruct (is_StructVal o) eqn:Hsv; [|done].
    destruct (struct_def o) as [sd|] eqn:Hsd; [|done].
    destruct (val o) as [| |fs] eqn:Hval; try done. simpl in Hrec.
    exists o, fs. split; [done|]. split; [done|].
    rewrite (loop_body_Some _ _ _ _ _ _ Ho), Hval, for_fields_follows.
    - simpl. unfold c_size_at. by rewrite Ho, Hsd.
    - intros f Hf. pose proof (proj1 (forallb_forall _ _) Hrec f Hf) as Hin.
      unfold in_heap in Hin. destruct (h !! f) as [fo|] eqn:Hfo; [|done].
      exists fo. split; [done|]. intros Hfol.
      pose proof (Hok f Hfol) as Hr.
      unfold record_ok in Hr. rewrite Hfo in Hr.
      by destruct (is_StructVal fo). }
  rewrite Hrun.
  pose proof (same_shape_set h v o off Hv) as Hsh.
  apply IH.
  - by apply (heap_ok_shape h).
  - intros w Hw. rewrite <- (record_ok_shape _ _ w Hsh).
    simpl in Hw. apply in_app_or in Hw as [Hw|Hw].
    + apply Hrec. by right.
    + apply filter_In in Hw as [_ Hw]. by apply Hok.
  - simpl in Ha. destruct Ha as [<-|Ha].
    + destruct (reaches_cycle_step h v Hc) as (b & (o2 & fs2 & Hv2 & Hval2 & Hin & Hf) & Hb).
      exists b. split; [|by apply (reaches_cycle_shape h)].
      simpl. apply in_or_app. right. apply filter_In.
      assert (fs2 = fs) as -> by congruence. done.
    + exists a. split; [|by apply (reaches_cycle_shape h)].
      simpl. apply in_or_app. by left.
Qed.

End Cycles.

(* ===================================================================== *)
(** ** Facts about emitted records *)
(* ===================================================================== *)

Section EmitFacts.

Implicit Types (h : heap) (a f : addr) (vals : list addr).

Lemma field_width_shape h h' f :
  same_shape h h' -> field_width h f = field_width h' f.
Proof.
  intros H. unfold field_width. destruct (h !! f) as [fo|] eqn:Hf.
  - destruct (same_shape_Some _ _ _ _ H Hf) as (fo' & -> & Ho).
    by apply shape_attrs in Ho as (_ & -> & _).
  - by rewrite (same_shape_None _ _ _ H Hf).
Qed.

Lemma fields_of_shape h h' a :
  same_shape h h' -> fields_of h a = fields_of h' a.
Proof.
  intros H. unfold fields_of. destruct (h !! a) as [o|] eqn:Ha.
  - destruct (same_shape_Some _ _ _ _ H Ha) as (o' & -> & Ho).
    by apply shape_attrs in Ho as (_ & _ & -> & _).
  - by rewrite (same_shape_None _ _ _ H Ha).
Qed.

Lemma record_width_shape h h' a :
  same_shape h h' -> record_width h a = record_width h' a.
Proof.
  intros H. unfold record_width. rewrite <- (fields_of_shape _ _ a H).
  induction (fields_of h a) as [|f fs IH]; simpl; [done|].
  by rewrite IH, (field_width_shape _ _ f H).
Qed.

Lemma sized_ok_sum h h' vals :
  same_shape h h' ->
  (forall a, In a vals -> sized_ok h a = true) ->
  foldr (fun a s => (record_width h' a + s)%Z) 0%Z vals = sum_sizes h vals.
Proof.
  intros H Hs. induction vals as [|a vals IH]; simpl; [done|].
  rewrite IH by (intros; apply Hs; by right).
  specialize (Hs a (or_introl eq_refl)). unfold sized_ok in Hs.
  rewrite <- (record_width_shape _ _ a H). f_equal. lia.
Qed.

Lemma record_emits_false h a f :
  In f (fields_of h a) -> field_ok h f = false -> record_emits h a = false.
Proof.
  intros Hin Hf. destruct (record_emits h a) eqn:Hr; [|done].
  apply record_emits_fields in Hr.
  pose proof (proj1 (forallb_forall _ _) Hr f Hin). congruence.
Qed.

Lemma get_cpp_data_overflow h a off pre f post :
  (exists o, h !! a = Some o /\ is_StructVal o = true
     /\ is_Some (struct_def o)) ->
  fields_of h a = pre ++ f :: post ->
  forallb (field_ok h) pre = true -> overflows h f = true ->
  get_cpp_data_for_struct_val a off h = (Raise StructError, h).
Proof.
  intros (o & Ho & Hsv & [sd Hsd]) Hfs Hpre Hf.
  unfold get_cpp_data_for_struct_val. unfold_monad.
  unfold fields_of in Hfs. rewrite Ho in *. rewrite Hsv, Hsd.
  destruct (val o) as [| |fs]; try by destruct pre.
  subst fs. by rewrite for_fields_data_overflow.
Qed.

Lemma for_vals_overflow h vpre a vpost lines off :
  forallb (record_emits h) vpre = true ->
  (forall off', get_cpp_data_for_struct_val a off' h = (Raise StructError, h)) ->
  for_vals (vpre ++ a :: vpost) lines off h = (Raise StructError, h).
Proof.
  intros Hpre Ha. revert lines off.
  induction vpre as [|v vpre IH]; intros lines off.
  - simpl. unfold bind. by rewrite Ha.
  - cbn [forallb] in Hpre. apply andb_prop in Hpre as [Hv Hpre].
    rewrite <- app_comm_cons. cbn [for_vals]. unfold bind.
    destruct (get_cpp_data_run h v off) as [e ->]. rewrite Hv. by apply IH.
Qed.

Lemma record_emits_checks h a :
  record_emits h a = true ->
  exists o, h !! a = Some o /\ is_StructVal o = true /\ is_Some (struct_def o).
Proof.
  unfold record_emits. destruct (h !! a) as [o|]; [|done].
  destruct (is_StructVal o) eqn:Hsv; [|done].
  destruct (struct_def o) as [sd|] eqn:Hsd; [|done]. intros _. exists o.
  split; [done|]. split; [done|]. by exists sd.
Qed.

End EmitFacts.

(* ===================================================================== *)
(** ** The version codec *)
(* ===================================================================== *)

Section Version.

Lemma lor_mul_pow2_add x y n :
  (0 <= n)%Z -> (0 <= y < 2 ^ n)%Z ->
  Z.lor (x * 2 ^ n) y = (x * 2 ^ n + y)%Z.
Proof.
  intros Hn Hy.
  assert (Z.land (x * 2 ^ n) y = 0%Z) as Hland.
  { apply Z.bits_inj'. intros k Hk. rewrite Z.land_spec, Z.bits_0.
    destruct (Z.lt_ge_cases k n) as [Hlt|Hge].
    - by rewrite Z.mul_pow2_bits_low.
    - rewrite andb_false_iff. right.
      destruct (Z.eq_dec y 0%Z) as [->|Hy0]; [apply Z.bits_0|].
      apply Z.bits_above_log2; [lia|].
      apply Z.lt_le_trans with n; [|done].
      apply Z.log2_lt_pow2; lia. }
  rewrite <- Z.lxor_lor by done. symmetry. by apply Z.add_nocarry_lxor.
Qed.

Lemma component_ok_range c : component_ok c = true <-> (0 <= c <= 255)%Z.
Proof. unfold component_ok. lia. Qed.

(** On valid components the packed version is the base-256 number with
    digits major, minor, patch, build. *)
Lemma encode_sum M m p b :
  (0 <= M <= 255)%Z -> (0 <= m <= 255)%Z -> (0 <= p <= 255)%Z ->
  (0 <= b <= 255)%Z ->
  encode M m p b = Some (M * 2 ^ 24 + m * 2 ^ 16 + p * 2 ^ 8 + b)%Z.
Proof.
  intros HM Hm Hp Hb. unfold encode.
  rewrite !(proj2 (component_ok_range _)) by done. cbn [andb]. f_equal.
  rewrite !Z.shiftl_mul_pow2 by done.
  rewrite (lor_mul_pow2_add M (m * 2 ^ 16) 24) by lia.
  replace (M * 2 ^ 24 + m * 2 ^ 16)%Z with ((M * 2 ^ 8 + m) * 2 ^ 16)%Z by lia.
  rewrite (lor_mul_pow2_add _ (p * 2 ^ 8) 16) by lia.
  replace ((M * 2 ^ 8 + m) * 2 ^ 16 + p * 2 ^ 8)%Z
    with ((M * 2 ^ 16 + m * 2 ^ 8 + p) * 2 ^ 8)%Z by lia.
  rewrite (lor_mul_pow2_add _ b 8) by lia. lia.
Qed.

Lemma lex4_sum M m p b M' m' p' b' :
  (0 <= M <= 255)%Z -> (0 <= m <= 255)%Z -> (0 <= p <= 255)%Z ->
  (0 <= b <= 255)%Z ->
  (0 <= M' <= 255)%Z -> (0 <= m' <= 255)%Z -> (0 <= p' <= 255)%Z ->
  (0 <= b' <= 255)%Z ->
  ((M * 2 ^ 24 + m * 2 ^ 16 + p * 2 ^ 8 + b)
   ?= (M' * 2 ^ 24 + m' * 2 ^ 16 + p' * 2 ^ 8 + b'))%Z
  = lex4 (M, m, p, b) (M', m', p', b').
Proof.
  intros. unfold lex4.
  destruct (Z.compare_spec M M'); [|apply Z.compare_lt_iff; lia|apply Z.compare_gt_iff; lia].
  destruct (Z.compare_spec m m'); [|apply Z.compare_lt_iff; lia|apply Z.compare_gt_iff; lia].
  destruct (Z.compare_spec p p'); [|apply Z.compare_lt_iff; lia|apply Z.compare_gt_iff; lia].
  subst. destruct (Z.compare_spec b b');
    [apply Z.compare_eq_iff|apply Z.compare_lt_iff|apply Z.compare_gt_iff]; lia.
Qed.

End Version.

(* ===================================================================== *)
(** ** Properties of the specification *)
(* ===================================================================== *)

Import Examples.

(** C5: for version components in 0..255 the packed version is
    [(major<<24) | (minor<<16) | (patch<<8) | build], comparing two packed
    versions as integers is comparing the component tuples
    lexicographically (major first), and in particular
    [encode(2,2,1,0) > encode(2,1,9,9)] and
    [encode(2,0,0,0) < encode(2,0,0,1)]. *)
Theorem encode_orders_versions M m p b M' m' p' b' :
  (0 <= M <= 255)%Z -> (0 <= m <= 255)%Z -> (0 <= p <= 255)%Z ->
  (0 <= b <= 255)%Z ->
  (0 <= M' <= 255)%Z -> (0 <= m' <= 255)%Z -> (0 <= p' <= 255)%Z ->
  (0 <= b' <= 255)%Z ->
  encode M m p b
  = Some (Z.lor (Z.lor (Z.lor (Z.shiftl M 24) (Z.shiftl m 16))
                       (Z.shiftl p 8)) b)
  /\ (exists e e',
        encode M m p b = Some e /\ encode M' m' p' b' = Some e'
        /\ (e ?= e')%Z = lex4 (M, m, p, b) (M', m', p', b'))
  /\ (exists e1 e2, encode 2 2 1 0 = Some e1 /\ encode 2 1 9 9 = Some e2
        /\ (e1 > e2)%Z)
  /\ (exists e1 e2, encode 2 0 0 0 = Some e1 /\ encode 2 0 0 1 = Some e2
        /\ (e1 < e2)%Z).
Proof.
  intros HM Hm Hp Hb HM' Hm' Hp' Hb'. split; [|split; [|split]].
  - unfold encode. by rewrite !(proj2 (component_ok_range _)).
  - eexists _, _. split; [by apply encode_sum|]. split; [by apply encode_sum|].
    by apply lex4_sum.
  - eexists _, _. split; [reflexivity|]. split; [reflexivity|]. done.
  - eexists _, _. split; [reflexivity|]. split; [reflexivity|]. done.
Qed.

Lemma encode_orders_versions_witness :
  encode 2 3 0 0 = Some 33751040%Z
  /\ exists e e', encode 2 3 0 0 = Some e /\ encode 2 2 9 9 = Some e'
       /\ (e ?= e')%Z = Gt.
Proof.
  destruct (encode_orders_versions 2 3 0 0 2 2 9 9) as (H1 & H2 & _);
    [lia|lia|lia|lia|lia|lia|lia|lia|].
  split; [exact H1 | exact H2].
Defined.

(** C1: on an acyclic value tree rooted at a [StructVal],
    [flatten_values_tree] is a breadth-first traversal: each iteration
    pops the front of the queue, stores the current cumulative offset in
    it, appends its non-null nested struct fields in field order to the
    back of the queue and advances the offset by the record's [c_size];
    the returned list is the tree generation by generation, and the
    offsets stored are the cumulative sizes along that list, from 0. *)
Theorem flatten_values_tree_breadth_first h t fuel :
  is_tree h t = true ->
  first_var_is_version h (root t) = true ->
  tree_size t <= fuel ->
  flatten_values_tree fuel (root t) h
  = (Ok (level_order t), assign_offsets (level_order t) 0 h)
  /\ forall h1 a cs left off vals,
       is_tree h1 (Node a cs) = true ->
       exists o fs,
         h1 !! a = Some o /\ val o = VList fs
         /\ loop_body a left off vals h1
            = (Ok (Locals (left ++ List.filter (follows h1) fs)
                          (off + c_size_at h1 a)%Z (vals ++ [a])),
               <[a := with_offset o off]> h1).
Proof.
  intros Ht Hv Hfuel. split.
  - rewrite (flatten_tree_run fuel h t Ht Hv).
    rewrite decide_True by done.
    by rewrite take_ge by (rewrite level_order_length; lia).
  - intros h1 a cs left off vals Ha.
    destruct (loop_body_tree h1 a cs left off vals Ha) as (o & Ho & Hrun).
    destruct (is_tree_node _ _ _ Ha) as (o' & sd & fs & Ho' & _ & _ & Hval & _ & Hf & _).
    assert (o' = o) as -> by congruence.
    exists o, fs. split; [done|]. split; [done|]. by rewrite Hf.
Qed.

Lemma flatten_values_tree_breadth_first_witness :
  flatten_values_tree 2 1%positive heapSC
  = (Ok [1%positive; 4%positive],
     assign_offsets [1%positive; 4%positive] 0 heapSC).
Proof.
  apply (flatten_values_tree_breadth_first heapSC treeSC 2);
    [reflexivity | reflexivity | simpl; lia].
Defined.

(** C2: in the list flattened from an acyclic value tree the root has
    offset 0 and each record's offset is the previous record's offset
    plus the previous record's [c_size]; every record is popped, hence
    assigned, once, and the offset a record has received after any
    number of iterations is the one it has at the end. *)
Theorem flatten_offsets_cumulative h t fuel :
  is_tree h t = true ->
  NoDup (nodes t) ->
  first_var_is_version h (root t) = true ->
  tree_size t <= fuel ->
  exists vals h',
    flatten_values_tree fuel (root t) h = (Ok vals, h')
    /\ NoDup vals
    /\ offset_at h' (root t) = Some 0%Z
    /\ (forall i a b, vals !! i = Some a -> vals !! (S i) = Some b ->
          exists z, offset_at h' a = Some z
            /\ offset_at h' b = Some (z + c_size_at h' a)%Z)
    /\ (forall k i a, vals !! i = Some a -> i < k ->
          offset_at (snd (flatten_values_tree k (root t) h)) a
          = offset_at h' a).
Proof.
  intros Ht Hnd Hv Hfuel.
  exists (level_order t), (assign_offsets (level_order t) 0 h).
  pose proof (level_order_NoDup t Hnd) as HndL.
  assert (forall b, In b (level_order t) -> is_Some (h !! b)) as Hdom
    by (intros b; by apply level_order_in_heap).
  assert (forall i a, level_order t !! i = Some a ->
            offset_at (assign_offsets (level_order t) 0 h) a
            = Some (0 + sum_sizes h (take i (level_order t)))%Z) as Hoff
    by (intros i a; by apply assign_offsets_lookup).
  split; [|split; [done|split; [|split]]].
  - rewrite (flatten_tree_run fuel h t Ht Hv), decide_True by done.
    by rewrite take_ge by (rewrite level_order_length; lia).
  - destruct (level_order_head t) as [rest Hrest].
    rewrite (Hoff 0 (root t)) by (by rewrite Hrest). by rewrite take_0.
  - intros i a b Ha Hb. eexists. split; [by apply Hoff|].
    rewrite (Hoff (S i) b Hb), (sum_sizes_take_S h _ i a Ha).
    rewrite <- (c_size_at_shape _ _ a (assign_offsets_shape _ _ _)).
    f_equal; lia.
  - intros k i a Ha Hik.
    rewrite (flatten_tree_run k h t Ht Hv). cbn [snd].
    rewrite (Hoff i a Ha).
    rewrite (assign_offsets_lookup (take k (level_order t)) 0 h i a).
    + rewrite take_take. by replace (i `min` k) with i by lia.
    + eapply sublist_NoDup; [exact HndL | apply sublist_take].
    + intros b Hb. apply Hdom. apply list_elem_of_In.
      apply list_elem_of_In in Hb.
      apply elem_of_take in Hb as (j & Hj & _).
      apply list_elem_of_lookup. eauto.
    + by rewrite lookup_take_lt.
Qed.

Lemma flatten_offsets_cumulative_witness :
  exists vals h',
    flatten_values_tree 5 1%positive heapSC = (Ok vals, h')
    /\ NoDup vals
    /\ offset_at h' 1%positive = Some 0%Z
    /\ (forall i a b, vals !! i = Some a -> vals !! (S i) = Some b ->
          exists z, offset_at h' a = Some z
            /\ offset_at h' b = Some (z + c_size_at h' a)%Z)
    /\ (forall k i a, vals !! i = Some a -> i < k ->
          offset_at (snd (flatten_values_tree k 1%positive heapSC)) a
          = offset_at h' a).
Proof.
  apply (flatten_offsets_cumulative heapSC treeSC 5);
    [reflexivity | | reflexivity | simpl; lia].
  simpl. apply NoDup_cons. split; [by intros ?%list_elem_of_singleton|].
  apply NoDup_singleton.
Defined.

Lemma heapAB_edge_1_2 : edge heapAB 1%positive 2%positive.
Proof.
  exists (record (ptr "a") defA [3; 2]%positive), [3; 2]%positive.
  split; [reflexivity|]. split; [reflexivity|].
  split; [right; by left | reflexivity].
Qed.

Lemma heapAB_edge_2_1 : edge heapAB 2%positive 1%positive.
Proof.
  exists (record (ptr "b") defB [4; 1]%positive), [4; 1]%positive.
  split; [reflexivity|]. split; [reflexivity|].
  split; [right; by left | reflexivity].
Qed.

Lemma heapAB_reaches_cycle : reaches_cycle heapAB 1%positive.
Proof.
  exists 1%positive. split; [apply rtc_refl|].
  eapply tc_l; [apply heapAB_edge_1_2|]. apply tc_once, heapAB_edge_2_1.
Qed.

(** C3, as the code has it: there is no cycle detection.  From a root
    that reaches a node reachable from itself, [flatten_values_tree]
    never returns a list; when the records of the store are well formed
    and the top-level checks pass it raises nothing either, the loop
    goes on for any number of iterations. *)
Theorem flatten_values_tree_cycle_diverges h a :
  reaches_cycle h a ->
  (forall fuel out, fst (flatten_values_tree fuel a h) <> Ok out)
  /\ (heap_ok h = true -> record_ok h a = true ->
      first_var_is_version h a = true ->
      forall fuel, fst (flatten_values_tree fuel a h) = OutOfFuel).
Proof.
  intros Hc. split.
  - intros fuel out. rewrite flatten_unfold.
    destruct (top_check h a) as [[]| |]; try done.
    apply while_left_cycle_not_Ok. exists a. split; [by left | done].
  - intros Hok Hrec Hver fuel. rewrite flatten_unfold.
    assert (top_check h a = Ok tt) as ->.
    { apply top_check_Ok. split; [|done]. unfold record_ok in Hrec.
      destruct (h !! a) as [o|]; [|done]. exists o. split; [done|].
      by destruct (is_StructVal o). }
    apply while_left_cycle.
    + intros b. by apply heap_ok_follows.
    + by intros v [<-|[]].
    + exists a. split; [by left | done].
Qed.

Lemma flatten_values_tree_cycle_diverges_witness :
  reaches_cycle heapAB 1%positive
  /\ forall fuel out, fst (flatten_values_tree fuel 1%positive heapAB) <> Ok out.
Proof.
  split; [exact heapAB_reaches_cycle|].
  exact (proj1 (flatten_values_tree_cycle_diverges heapAB 1%positive
                  heapAB_reaches_cycle)).
Defined.

(** C3 fails on two records that reference each other: no exception is
    ever raised, the loop runs for every number of iterations, and
    after two iterations the first record, already visited, is back in
    the queue. *)
Lemma cyclic_tree_is_not_rejected :
  (forall fuel, fst (flatten_values_tree fuel 1%positive heapAB) = OutOfFuel)
  /\ (exists h1 h2,
        loop_body 1%positive [] 0 [] heapAB
        = (Ok (Locals [2%positive] 12 [1%positive]), h1)
        /\ loop_body 2%positive [] 12 [1%positive] h1
           = (Ok (Locals [1%positive] 24 [1%positive; 2%positive]), h2)).
Proof.
  split.
  - intros fuel. rewrite flatten_unfold.
    assert (top_check heapAB 1%positive = Ok tt) as -> by reflexivity.
    apply while_left_cycle.
    + intros a. by apply heap_ok_follows.
    + by intros v [<-|[]].
    + exists 1%positive. split; [by left | exact heapAB_reaches_cycle].
  - eexists _, _. split; reflexivity.
Qed.

(** C4, evaluated on a record whose struct field is bound to [None]:
    flattening skips the null field and leaves its offset unset, and the
    emitter stops at [assert False] with an [AssertionError]; the
    assignment of 0 below the assertion is not reached. *)
Theorem null_struct_field_trips_assertion :
  fst (flatten_values_tree 3 1%positive heapNull) = Ok [1%positive]
  /\ offset_at (snd (flatten_values_tree 3 1%positive heapNull)) 4%positive = None
  /\ fst (main_values 3 1%positive heapNull) = Raise AssertionError.
Proof. split; [|split]; reflexivity. Qed.

(** C6 fails on a top-level struct whose first field is a 16-bit field
    called "version": flattening goes through and assigns offset 0. *)
Lemma version_field_type_is_not_checked :
  first_field_is_u32_version heapW 1%positive = false
  /\ fst (flatten_values_tree 1 1%positive heapW) = Ok [1%positive]
  /\ offset_at (snd (flatten_values_tree 1 1%positive heapW)) 1%positive
     = Some 0%Z.
Proof. split; [|split]; reflexivity. Qed.

(** C6, as the code has it: only the name of the first field is checked.
    When the first field of the top-level struct definition is not
    called "version" (or there is none), [flatten_values_tree] raises
    before any offset is assigned: the store is unchanged; the
    exception is an [AssertionError] when a first field with another
    name exists. *)
Theorem flatten_requires_version_name h a fuel :
  first_var_is_version h a = false ->
  (exists e, flatten_values_tree fuel a h = (Raise e, h))
  /\ forall o sd v0 rest,
       h !! a = Some o -> struct_def o = Some sd -> vars sd = v0 :: rest ->
       flatten_values_tree fuel a h = (Raise AssertionError, h).
Proof.
  intros Hv. split.
  - destruct (top_check_fails h a Hv) as [e He]. exists e.
    by rewrite flatten_unfold, He.
  - intros o sd v0 rest Ho Hsd Hvars. rewrite flatten_unfold.
    unfold top_check. unfold first_var_is_version in Hv.
    rewrite Ho, Hsd, Hvars in *. rewrite Hv. by destruct (is_StructVal o).
Qed.

Lemma flatten_requires_version_name_witness :
  first_var_is_version heapN 1%positive = false
  /\ exists e, flatten_values_tree 4 1%positive heapN = (Raise e, heapN).
Proof.
  split; [reflexivity|].
  exact (proj1 (flatten_requires_version_name heapN 1%positive 4 eq_refl)).
Defined.

(** C7: when flattening and emitting an acyclic value tree both
    succeed, the emitted bytes are the byte runs of the records in
    flattened-list order, the run of a record is as long as its
    [c_size], and the total length is the sum of [c_size] over the
    records of the tree, each counted once. *)
Theorem emitted_length_is_total_size h t fuel out h' :
  is_tree h t = true ->
  NoDup (nodes t) ->
  (forall a, In a (nodes t) -> sized_ok h a = true) ->
  main_values fuel (root t) h = (Ok out, h') ->
  exists vals,
    fst (flatten_values_tree fuel (root t) h) = Ok vals
    /\ vals ≡ₚ nodes t /\ NoDup vals
    /\ data_bytes out = concat (map (record_bytes h') vals)
    /\ (forall a, In a vals ->
          Z.of_nat (length (record_bytes h' a)) = c_size_at h a)
    /\ Z.of_nat (length (data_bytes out)) = sum_sizes h (nodes t).
Proof.
  intros Ht Hnd Hsized Hrun. unfold main_values, bind in Hrun.
  assert (first_var_is_version h (root t) = true) as Hv.
  { rewrite flatten_unfold in Hrun.
    destruct (top_check h (root t)) as [[]| |] eqn:Htop; try done.
    by apply top_check_Ok in Htop as [_ ?]. }
  rewrite (flatten_tree_run fuel h t Ht Hv) in Hrun |- *.
  destruct (decide (tree_size t <= fuel)) as [Hfuel|]; [|done].
  rewrite take_ge in Hrun by (rewrite level_order_length; lia).
  set (h1 := assign_offsets (level_order t) 0 h) in *.
  assert (same_shape h h1) as Hsh by apply assign_offsets_shape.
  exists (level_order t). split; [done|].
  split; [apply level_order_perm|]. split; [by apply level_order_NoDup|].
  destruct (level_order_head t) as [rest Hrest]. rewrite Hrest in Hrun.
  destruct (gen_cpp_data_run h1 (root t) rest) as [e He]. rewrite He in Hrun.
  rewrite <- Hrest in *.
  destruct (forallb (record_emits h1) (level_order t)) eqn:Hemit; [|done].
  injection Hrun as <- <-.
  assert (forall a, In a (level_order t) -> sized_ok h a = true) as HsizedL.
  { intros a Ha. apply Hsized. apply list_elem_of_In.
    rewrite <- (level_order_perm t). by apply list_elem_of_In. }
  assert (data_bytes (ArrayOpen (record_name h1 (root t))
            :: all_lines h1 (level_order t) 0 ++ [ArrayClose])
          = concat (map (record_bytes h1) (level_order t))) as Hbytes.
  { change (data_bytes (all_lines h1 (level_order t) 0 ++ [ArrayClose])
            = concat (map (record_bytes h1) (level_order t))).
    rewrite data_bytes_app, all_lines_bytes by done.
    change (data_bytes [ArrayClose]) with (@nil Z). by rewrite app_nil_r. }
  split; [done|]. split.
  - intros a Ha.
    rewrite record_bytes_length
      by (by apply (proj1 (forallb_forall _ _) Hemit)).
    rewrite <- (record_width_shape _ _ a Hsh).
    specialize (HsizedL a Ha). unfold sized_ok in HsizedL. lia.
  - rewrite Hbytes, concat_record_bytes_length by done.
    rewrite (sized_ok_sum h h1) by done.
    apply sum_sizes_perm, level_order_perm.
Qed.

Lemma emitted_length_is_total_size_witness :
  exists vals,
    fst (flatten_values_tree 5 1%positive heapSC) = Ok vals
    /\ vals ≡ₚ nodes treeSC /\ NoDup vals
    /\ data_bytes (match fst (main_values 5 1%positive heapSC) with
                   | Ok out => out | _ => [] end)
       = concat (map (record_bytes (snd (main_values 5 1%positive heapSC))) vals)
    /\ (forall a, In a vals ->
          Z.of_nat (length (record_bytes (snd (main_values 5 1%positive heapSC)) a))
          = c_size_at heapSC a)
    /\ Z.of_nat (length (data_bytes (match fst (main_values 5 1%positive heapSC) with
                   | Ok out => out | _ => [] end)))
       = sum_sizes heapSC (nodes treeSC).
Proof.
  apply (emitted_length_is_total_size heapSC treeSC 5).
  - reflexivity.
  - simpl. apply NoDup_cons. split; [by intros ?%list_elem_of_singleton|].
    apply NoDup_singleton.
  - intros a [<-|[<-|[]]]; reflexivity.
  - reflexivity.
Defined.

(** C8: flattening and emitting are functions of their input, and the
    offsets left in the store by one run do not influence the next:
    running the two steps again on the store the first run left behind
    gives the same lines, the same bytes and the same store. *)
Theorem main_values_deterministic fuel a h :
  main_values fuel a (snd (main_values fuel a h)) = main_values fuel a h.
Proof.
  destruct (flatten_log fuel a h) as (g & _ & _ & Hlog).
  pose proof (Hlog h (same_shape_refl h)) as Hrun.
  pose proof (Hlog (override g h) (same_shape_override g h)) as Hrun'.
  rewrite override_idem in Hrun'.
  assert (snd (main_values fuel a h) = override g h) as Hsnd.
  { unfold main_values, bind. rewrite Hrun.
    destruct (fst (flatten_values_tree fuel a h)) as [vals| |]; try done.
    apply gen_cpp_data_heap. }
  rewrite Hsnd. unfold main_values, bind. by rewrite Hrun', Hrun.
Qed.

(** C9: when a record of the flattened list has a primitive field
    bound to an integer outside the range of the field's format, the
    emitter raises and returns no lines at all; the exception is
    [struct.error] when every record and field before the offending one
    packs. *)
Theorem emit_overflow_raises h vals a f :
  In a vals -> In f (fields_of h a) -> overflows h f = true ->
  (exists e, gen_cpp_data_for_struct_values vals h = (Raise e, h))
  /\ forall vpre vpost pre post,
       vals = vpre ++ a :: vpost ->
       fields_of h a = pre ++ f :: post ->
       forallb (record_emits h) vpre = true ->
       forallb (field_ok h) pre = true ->
       (exists o, h !! a = Some o /\ is_StructVal o = true
          /\ is_Some (struct_def o)) ->
       gen_cpp_data_for_struct_values vals h = (Raise StructError, h).
Proof.
  intros Ha Hf Hover. split.
  - destruct vals as [|v0 vals]; [done|].
    destruct (gen_cpp_data_run h v0 vals) as [e He]. exists e. rewrite He.
    assert (forallb (record_emits h) (v0 :: vals) = false) as ->; [|done].
    destruct (forallb (record_emits h) (v0 :: vals)) eqn:Hall; [|done].
    pose proof (proj1 (forallb_forall _ _) Hall a Ha) as Hr.
    by rewrite (record_emits_false h a f Hf (overflows_not_ok h f Hover)) in Hr.
  - intros vpre vpost pre post -> Hfs Hvpre Hpre Hrec.
    assert (forall off', get_cpp_data_for_struct_val a off' h
                         = (Raise StructError, h)) as Hget
      by (intros off'; by apply (get_cpp_data_overflow h a off' pre f post)).
    assert (exists v0 rest, vpre ++ a :: vpost = v0 :: rest
              /\ exists o, h !! v0 = Some o /\ is_StructVal o = true
                   /\ is_Some (struct_def o)) as (v0 & rest & Heq & o & Ho & Hsv & [sd Hsd]).
    { destruct vpre as [|v vpre].
      - exists a, vpost. split; [done|]. exact Hrec.
      - exists v, (vpre ++ a :: vpost). split; [done|].
        cbn [forallb] in Hvpre. apply andb_prop in Hvpre as [Hv _].
        by apply record_emits_checks. }
    unfold gen_cpp_data_for_struct_values. rewrite Heq. unfold_monad.
    rewrite Ho, Hsv, Hsd. rewrite <- Heq.
    by rewrite (for_vals_overflow h vpre a vpost _ _ Hvpre Hget).
Qed.

Lemma emit_overflow_raises_witness :
  overflows heapBig 3%positive = true
  /\ exists e,
       gen_cpp_data_for_struct_values [1%positive; 4%positive] heapBig
       = (Raise e, heapBig).
Proof.
  split; [reflexivity|].
  apply (emit_overflow_raises heapBig [1%positive; 4%positive]
           1%positive 3%positive).
  - by left.
  - right. by left.
  - reflexivity.
Defined.

(** C10: [flatten_values_tree] writes offsets of visited records and
    nothing else.  Every object of the store is still there afterwards
    with the same class, type, bound value, struct flag and struct
    definition, no object is added, an object that is not in the
    returned list is untouched, and the returned list holds objects of
    the input store, each with an offset assigned. *)
Theorem flatten_only_writes_offsets fuel root h :
  (forall a o, h !! a = Some o ->
     exists o', snd (flatten_values_tree fuel root h) !! a = Some o'
       /\ struct_def o' = struct_def o /\ val o' = val o /\ typ o' = typ o
       /\ is_struct o' = is_struct o /\ is_StructVal o' = is_StructVal o)
  /\ (forall a, h !! a = None ->
        snd (flatten_values_tree fuel root h) !! a = None)
  /\ (forall out, fst (flatten_values_tree fuel root h) = Ok out ->
        (forall a, In a out -> is_Some (h !! a))
        /\ (forall a, In a out ->
              is_Some (offset_at (snd (flatten_values_tree fuel root h)) a))
        /\ (forall a, ~ In a out ->
              snd (flatten_values_tree fuel root h) !! a = h !! a)).
Proof.
  destruct (flatten_log fuel root h) as (g & Hout & Hdom & Hlog).
  pose proof (Hlog h (same_shape_refl h)) as Hrun.
  assert (snd (flatten_values_tree fuel root h) = override g h) as ->
    by (by rewrite Hrun).
  pose proof (same_shape_override g h) as Hsh.
  split; [|split].
  - intros a o Ha. destruct (same_shape_Some _ _ _ _ Hsh Ha) as (o' & Ho' & Hs).
    exists o'. split; [done|].
    apply shape_attrs in Hs as (? & ? & ? & ? & ?). done.
  - intros a Ha. by apply (same_shape_None h).
  - intros out Ho. specialize (Hout out Ho). split; [|split].
    + intros a Ha. apply Hdom. by apply Hout.
    + intros a Ha. apply Hout in Ha. unfold offset_at.
      rewrite lookup_override. destruct (Hdom a Ha) as [o ->].
      destruct Ha as [z ->]. simpl. eauto.
    + intros a Ha. rewrite lookup_override.
      destruct (g a) as [z|] eqn:Hg.
      * exfalso. apply Ha, Hout. by rewrite Hg.
      * by destruct (h !! a).
Qed.

(* ===================================================================== *)
(** ** Newline conversion *)
(* ===================================================================== *)

Section Newlines.

Implicit Types (s t : string) (c : ascii).

Lemma to_win_newlines_passes s : to_win_newlines s = to_crlf (to_unix s).
Proof. done. Qed.

Lemma to_crlf_nil : to_crlf "" = "".
Proof. done. Qed.

Lemma LF_neq_CR : LF <> CR.
Proof. done. Qed.

Lemma to_crlf_cons c s :
  to_crlf (String c s)
  = if Ascii.eqb c LF then String CR (String LF (to_crlf s))
    else String c (to_crlf s).
Proof.
  unfold to_crlf, py_replace, lf. cbn [replace_from String.prefix].
  destruct (ascii_dec LF c) as [<-|Hne].
  - rewrite Ascii.eqb_refl. by destruct s.
  - destruct (Ascii.eqb_spec c LF) as [->|_]; done.
Qed.

Lemma to_unix_nil : to_unix "" = "".
Proof. done. Qed.

Lemma to_unix_crlf s :
  to_unix (String CR (String LF s)) = String LF (to_unix s).
Proof. by destruct s. Qed.

Lemma to_unix_cons c s :
  String.prefix crlf (String c s) = false ->
  to_unix (String c s) = String c (to_unix s).
Proof.
  intros H. unfold to_unix, py_replace, crlf in *.
  cbn [replace_from]. by rewrite H.
Qed.

Lemma prefix_crlf c s :
  String.prefix crlf (String c s) = true
  <-> c = CR /\ exists s', s = String LF s'.
Proof.
  unfold crlf. cbn [String.prefix].
  destruct (ascii_dec CR c) as [<-|Hne].
  - destruct s as [|c' s']; [split; [done | by intros [_ [? ?]]]|].
    cbn [String.prefix]. destruct (ascii_dec LF c') as [<-|Hne].
    + split; [|by destruct s']. intros _. split; [done|]. by exists s'.
    + split; [done|]. intros [_ [s'' [= Hc _]]]. by subst.
  - split; [done|]. by intros [-> _].
Qed.

(** Converting the line ends back gives the text back. *)
Lemma to_unix_to_crlf t : to_unix (to_crlf t) = t.
Proof.
  induction t as [|c t IH]; [done|].
  rewrite to_crlf_cons. destruct (Ascii.eqb_spec c LF) as [->|Hne].
  - by rewrite to_unix_crlf, IH.
  - rewrite to_unix_cons, IH; [done|].
    destruct (String.prefix crlf (String c (to_crlf t))) eqn:Hp; [|done].
    apply prefix_crlf in Hp as [-> [s' Hs']].
    destruct t as [|c' t]; [done|]. rewrite to_crlf_cons in Hs'.
    destruct (Ascii.eqb_spec c' LF) as [->|Hne'].
    + injection Hs' as Hc _. by destruct LF_neq_CR.
    + injection Hs' as Hc _. done.
Qed.

End Newlines.

Section NewlineFacts.

Implicit Types (s t : string) (c p : ascii).

Lemma no_bare_lf_to_crlf p t : no_bare_lf p (to_crlf t) = true.
Proof.
  revert p. induction t as [|c t IH]; intros p; [done|].
  rewrite to_crlf_cons. destruct (Ascii.eqb_spec c LF) as [->|Hne].
  - cbn [no_bare_lf]. rewrite IH. done.
  - cbn [no_bare_lf]. rewrite IH.
    by destruct (Ascii.eqb_spec c LF).
Qed.

Lemma to_unix_step c s :
  (c = CR /\ exists s', s = String LF s'
     /\ to_unix (String c s) = String LF (to_unix s'))
  \/ (String.prefix crlf (String c s) = false
      /\ to_unix (String c s) = String c (to_unix s)).
Proof.
  destruct (String.prefix crlf (String c s)) eqn:Hp.
  - left. apply prefix_crlf in Hp as [-> [s' ->]].
    split; [done|]. exists s'. split; [done|]. apply to_unix_crlf.
  - right. split; [done|]. by apply to_unix_cons.
Qed.

(** A text in which every line feed follows a carriage return comes
    back from the two passes as it was. *)
Lemma to_crlf_to_unix_fixed n s p :
  String.length s <= n ->
  no_bare_lf p s = true ->
  (p = CR -> forall s', s <> String LF s') ->
  to_crlf (to_unix s) = s.
Proof.
  revert s p. induction n as [|n IH]; intros s p Hlen Hnb Hfirst.
  - destruct s; [done | simpl in Hlen; lia].
  - destruct s as [|c s]; [done|]. cbn [no_bare_lf] in Hnb.
    apply andb_prop in Hnb as [Hc Hnb]. simpl in Hlen.
    destruct (to_unix_step c s) as [(-> & s' & -> & ->)|(Hp & ->)].
    + rewrite to_crlf_cons, Ascii.eqb_refl. do 2 f_equal.
      cbn [no_bare_lf] in Hnb. apply andb_prop in Hnb as [_ Hnb].
      apply (IH s' LF); [simpl in Hlen; lia | done |].
      intros Heq. by destruct LF_neq_CR.
    + rewrite to_crlf_cons. destruct (Ascii.eqb_spec c LF) as [->|Hne].
      * destruct (Ascii.eqb_spec p CR) as [->|]; [|done].
        by destruct (Hfirst eq_refl s).
      * f_equal. apply (IH s c); [lia | done |].
        intros -> s' ->.
        assert (String.prefix crlf (String CR (String LF s')) = true) as Ht
          by (apply prefix_crlf; eauto).
        congruence.
Qed.


End NewlineFacts.

(** X1: [to_win_newlines] is idempotent: converting a converted text
    changes nothing. *)
Theorem to_win_newlines_idempotent s :
  to_win_newlines (to_win_newlines s) = to_win_newlines s.
Proof.
  rewrite !to_win_newlines_passes. by rewrite to_unix_to_crlf.
Qed.

(** X2: replacing CR LF by LF in the result of [to_win_newlines] gives
    the same text as replacing CR LF by LF in its argument: the second
    pass is undone by the first, nothing else of the text is touched. *)
Theorem to_win_newlines_undone s :
  py_replace crlf lf (to_win_newlines s) = py_replace crlf lf s.
Proof.
  rewrite to_win_newlines_passes. apply to_unix_to_crlf.
Qed.

(** X3: in the result of [to_win_newlines] every line feed comes right
    after a carriage return, and a text is left unchanged exactly when
    it is already of that form. *)
Theorem to_win_newlines_no_bare_lf s :
  no_bare_lf LF (to_win_newlines s) = true
  /\ (to_win_newlines s = s <-> no_bare_lf LF s = true).
Proof.
  split; [apply no_bare_lf_to_crlf|]. split.
  - intros <-. apply no_bare_lf_to_crlf.
  - intros Hnb. rewrite to_win_newlines_passes.
    apply (to_crlf_to_unix_fixed (String.length s) s LF); [lia | done |].
    intros Heq. by destruct LF_neq_CR.
Qed.

(* ===================================================================== *)
(** ** The hexadecimal table text *)
(* ===================================================================== *)

Section HexText.

Implicit Types (b : Z) (d : list Z).

Lemma hex_val_digit n : (0 <= n < 16)%Z -> hex_val (hex_digit n) = n.
Proof.
  intros Hn. rewrite <- (Z2Nat.id n) by lia.
  assert (Z.to_nat n < 16) as Hm by lia. revert Hm.
  generalize (Z.to_nat n). intros m Hm.
  do 16 (destruct m as [|m]; [reflexivity|]). lia.
Qed.

Lemma hex_byte_inj b1 b2 :
  is_byte b1 -> is_byte b2 -> hex_byte b1 = hex_byte b2 -> b1 = b2.
Proof.
  unfold is_byte, hex_byte. intros H1 H2 [= Hh Hl].
  apply (f_equal hex_val) in Hh, Hl.
  assert (forall b, (0 <= b < 256)%Z ->
            (0 <= b / 16 < 16)%Z /\ (0 <= b mod 16 < 16)%Z) as Hr
    by (intros b Hb; Z.div_mod_to_equations; lia).
  destruct (Hr b1 H1) as [? ?], (Hr b2 H2) as [? ?].
  rewrite !hex_val_digit in Hh, Hl by done.
  rewrite (Z.div_mod b1 16), (Z.div_mod b2 16) by lia. congruence.
Qed.

Lemma data_to_hex_cons b d :
  data_to_hex (b :: d)
  = (hex_byte b ++ match d with
                   | [] => ""
                   | _ => ", " ++ data_to_hex d
                   end)%string.
Proof. unfold data_to_hex. by destruct d. Qed.

Lemma data_to_hex_empty d : data_to_hex d = "" -> d = [].
Proof. by destruct d as [|b [|x d]]. Qed.

End HexText.

(** X4: [data_to_hex] loses nothing: two byte strings with the same
    hexadecimal text are equal. *)
Theorem data_to_hex_injective d1 d2 :
  Forall is_byte d1 -> Forall is_byte d2 ->
  data_to_hex d1 = data_to_hex d2 -> d1 = d2.
Proof.
  intros H1. revert d2. induction H1 as [|b1 d1 Hb1 Hd1 IH]; intros d2 H2 Heq.
  - symmetry. by apply data_to_hex_empty.
  - destruct H2 as [|b2 d2 Hb2 Hd2]; [by apply data_to_hex_empty in Heq|].
    rewrite !data_to_hex_cons in Heq.
    assert (hex_byte b1 = hex_byte b2
            /\ match d1 with [] => "" | _ => ", " ++ data_to_hex d1 end%string
               = match d2 with [] => "" | _ => ", " ++ data_to_hex d2 end%string)
      as [Hb Hrest].
    { unfold hex_byte in *. simpl in Heq. injection Heq as Hh Hl Hr.
      by rewrite Hh, Hl. }
    rewrite (hex_byte_inj b1 b2 Hb1 Hb2 Hb). f_equal.
    destruct d1 as [|x d1], d2 as [|y d2]; try done.
    apply IH; [done|]. simpl in Hrest. by injection Hrest.
Qed.

Lemma data_to_hex_injective_witness :
  data_to_hex [0; 255]%Z = "0x00, 0xff" /\ [0; 255]%Z = [0; 255]%Z.
Proof.
  split; [reflexivity|].
  apply (data_to_hex_injective [0; 255]%Z [0; 255]%Z);
    [repeat constructor; unfold is_byte; lia
    |repeat constructor; unfold is_byte; lia
    |reflexivity].
Defined.


(* ===================================================================== *)
(** ** The flattened list on any store *)
(* ===================================================================== *)

Section FlattenAnyStore.

Implicit Types (h : heap) (o : Obj) (a v f : addr)
  (fs left vals out : list addr).

Lemma followed_fields_shape h h' a :
  same_shape h h' -> followed_fields h a = followed_fields h' a.
Proof.
  intros H. unfold followed_fields. destruct (h !! a) as [o|] eqn:Ha.
  - destruct (same_shape_Some _ _ _ _ H Ha) as (o' & -> & Ho).
    apply shape_attrs in Ho as (_ & _ & -> & _).
    destruct (val o) as [| |fs]; try done. by apply filter_follows_shape.
  - by rewrite (same_shape_None _ _ _ H Ha).
Qed.

(** A successful field loop has found every field object and has seen
    a [StructVal] in every field it followed. *)
Lemma for_fields_Ok_checks fs left h l :
  fst (for_fields fs left h) = Ok l ->
  forall f, In f fs ->
    exists fo, h !! f = Some fo
      /\ (follows h f = true -> is_StructVal fo = true).
Proof.
  revert left. induction fs as [|f0 fs IH]; intros left Hrun f Hf; [done|].
  simpl in Hrun. revert Hrun. unfold_monad.
  destruct (h !! f0) as [fo|] eqn:Hf0; [|done].
  destruct (is_struct fo && not_None (val fo)) eqn:Hfol.
  - destruct (is_StructVal fo) eqn:Hsv; [|done]. intros Hrun.
    destruct Hf as [<-|Hf]; [|by apply (IH _ Hrun)].
    exists fo. by split.
  - intros Hrun. destruct Hf as [<-|Hf]; [|by apply (IH _ Hrun)].
    exists fo. split; [done|]. unfold follows. rewrite Hf0. congruence.
Qed.

(** What a successful iteration has checked and computed. *)
Lemma loop_body_Ok_inv v left off vals h st' :
  fst (loop_body v left off vals h) = Ok st' ->
  exists o sd fs,
    h !! v = Some o /\ struct_def o = Some sd /\ val o = VList fs
    /\ st' = Locals (left ++ List.filter (follows h) fs)
                    (off + c_size sd)%Z (vals ++ [v])
    /\ forall f, In f fs ->
         exists fo, h !! f = Some fo
           /\ (follows h f = true -> is_StructVal fo = true).
Proof.
  destruct (h !! v) as [o|] eqn:Hv.
  - rewrite (loop_body_Some _ _ _ _ _ _ Hv). simpl.
    destruct (val o) as [| |fs] eqn:Hval; try done.
    unfold body_result.
    destruct (fst (for_fields fs left h)) as [l| |] eqn:Hl; try done.
    destruct (struct_def o) as [sd|] eqn:Hsd; [|done]. intros [= <-].
    exists o, sd, fs. split; [done|]. split; [done|]. split; [done|].
    split; [by rewrite (for_fields_Ok _ _ _ _ Hl)|].
    by apply (for_fields_Ok_checks fs left h l).
  - by rewrite (loop_body_None _ _ _ _ _ Hv).
Qed.

(** The popped records of a finished loop: they are the queue followed
    by the followed fields of each popped record, in order; each one
    passed the checks of its iteration, and is a [StructVal] when the
    queued ones were. *)
Lemma while_left_popped fuel st h out :
  fst (while_left fuel st h) = Ok out ->
  exists popped,
    out = l_vals st ++ popped
    /\ popped = l_left st ++ concat (map (followed_fields h) popped)
    /\ forall a, In a popped ->
         exists o sd fs,
           h !! a = Some o /\ struct_def o = Some sd /\ val o = VList fs
           /\ (forall f, In f fs -> is_Some (h !! f))
           /\ ((forall v, In v (l_left st) ->
                  exists vo, h !! v = Some vo /\ is_StructVal vo = true) ->
               is_StructVal o = true).
Proof.
  revert st h out.
  induction fuel as [|fuel IH]; intros [[|v left] off vals] h out.
  1, 3: rewrite while_left_nil; intros [= <-]; exists [];
        split; [by rewrite app_nil_r | by split].
  - by rewrite while_left_O.
  - rewrite while_left_S. unfold bind.
    pose proof (loop_body_Ok_inv v left off vals h) as Hinv.
    destruct (h !! v) as [o|] eqn:Hv.
    2: { by rewrite (loop_body_None _ _ _ _ _ Hv). }
    pose proof (loop_body_Some v left off vals h o Hv) as Hb.
    destruct (loop_body v left off vals h) as [[st'| |] h1]; try done.
    injection Hb as _ Hh1. simpl in Hinv.
    destruct (Hinv st' eq_refl) as (o' & sd & fs & Hv' & Hsd & Hval & -> & Hfs).
    assert (o' = o) as -> by congruence.
    assert (same_shape h h1) as Hsh by (rewrite Hh1; by apply same_shape_set).
    intros Hrun. destruct (IH _ _ _ Hrun) as (popped & -> & Heq & Hall).
    cbn [l_left l_vals] in *.
    assert (followed_fields h v = List.filter (follows h) fs) as Hfv
      by (unfold followed_fields; by rewrite Hv, Hval).
    assert (forall b, followed_fields h1 b = followed_fields h b) as Hff
      by (intros b; symmetry; by apply followed_fields_shape).
    exists (v :: popped). split; [by rewrite <- app_assoc|]. split.
    + rewrite (map_ext _ _ Hff) in Heq.
      cbn [map concat]. rewrite Hfv. simpl. f_equal.
      rewrite Heq at 1. by rewrite <- !app_assoc.
    + intros a [<-|Ha].
      * exists o, sd, fs. split; [done|]. split; [done|]. split; [done|].
        split.
        -- intros f Hf. destruct (Hfs f Hf) as (fo & -> & _). eauto.
        -- intros Hq. destruct (Hq v (or_introl eq_refl)) as (vo & Hvo & Hsv).
           congruence.
      * destruct (Hall a Ha) as (oa & sda & fsa & Hoa & Hsda & Hvala & Hfsa & Hsva).
        destruct (same_shape_Some _ _ _ _ (same_shape_sym _ _ Hsh) Hoa)
          as (oa' & Hoa' & Hs).
        apply shape_attrs in Hs as (Hs1 & _ & Hs3 & _ & Hs5).
        exists oa', sda, fsa. split; [done|]. split; [congruence|].
        split; [congruence|]. split.
        -- intros f Hf. destruct (Hfsa f Hf) as [fo Hfo].
           destruct (same_shape_Some _ _ _ _ (same_shape_sym _ _ Hsh) Hfo)
             as (fo' & -> & _). eauto.
        -- intros Hq. rewrite Hs1. apply Hsva. intros w Hw.
           apply in_app_or in Hw as [Hw|Hw].
           ++ destruct (Hq w (or_intror Hw)) as (wo & Hwo & Hsv).
              destruct (same_shape_Some _ _ _ _ Hsh Hwo) as (wo' & -> & Hs').
              apply shape_attrs in Hs' as (Hsv' & _).
              exists wo'. split; [done | congruence].
           ++ apply filter_In in Hw as [Hw Hfol].
              destruct (Hfs w Hw) as (wo & Hwo & Hsv). specialize (Hsv Hfol).
              destruct (same_shape_Some _ _ _ _ Hsh Hwo) as (wo' & -> & Hs').
              apply shape_attrs in Hs' as (Hsv' & _).
              exists wo'. split; [done | congruence].
Qed.

(** After a successful flattening every returned record holds an
    offset. *)
Lemma flatten_assigned fuel root h out a :
  fst (flatten_values_tree fuel root h) = Ok out -> In a out ->
  is_Some (offset_at (snd (flatten_values_tree fuel root h)) a).
Proof.
  intros Hout Ha.
  destruct (flatten_log fuel root h) as (g & Hg & Hdom & Hlog).
  rewrite (Hlog h (same_shape_refl h)). cbn [snd].
  apply (Hg out Hout) in Ha. unfold offset_at. rewrite lookup_override.
  destruct (Hdom a Ha) as [o ->]. destruct Ha as [z ->]. simpl. eauto.
Qed.

Lemma flatten_same_shape fuel root h :
  same_shape h (snd (flatten_values_tree fuel root h)).
Proof.
  destruct (flatten_log fuel root h) as (g & _ & _ & Hlog).
  rewrite (Hlog h (same_shape_refl h)). apply same_shape_override.
Qed.

End FlattenAnyStore.

(** X6: on any store, trees or not, a list returned by
    [flatten_values_tree] is the root followed by the non-null struct
    fields of each listed record, record after record in list order and
    field order; a record that is the field of two listed records is
    listed twice, nothing is removed. *)
Theorem flatten_list_is_queue_order fuel root h out :
  fst (flatten_values_tree fuel root h) = Ok out ->
  out = root :: concat (map (followed_fields h) out).
Proof.
  rewrite flatten_unfold.
  destruct (top_check h root) as [[]| |]; try done.
  intros Hrun.
  destruct (while_left_popped _ _ _ _ Hrun) as (popped & -> & Heq & _).
  exact Heq.
Qed.

Lemma flatten_list_is_queue_order_witness :
  [1%positive; 4%positive]
  = 1%positive :: concat (map (followed_fields heapSC) [1%positive; 4%positive]).
Proof.
  apply (flatten_list_is_queue_order 5 1%positive heapSC). reflexivity.
Defined.

(** X7: a list returned by [flatten_values_tree] is never empty, and
    every record in it is a [StructVal] that has a struct definition and
    a list of field objects: the [isinstance] assertions and the
    [vals[0]] of the emitter cannot fail on it. *)
Theorem flatten_list_records_checked fuel root h out :
  fst (flatten_values_tree fuel root h) = Ok out ->
  out <> [] /\ forall a, In a out -> record_ok h a = true.
Proof.
  rewrite flatten_unfold.
  destruct (top_check h root) as [[]| |] eqn:Htop; try done.
  apply top_check_Ok in Htop as [(ro & Hro & Hrsv) _].
  intros Hrun.
  destruct (while_left_popped _ _ _ _ Hrun) as (popped & -> & Heq & Hall).
  split; [by rewrite Heq|]. intros a Ha.
  destruct (Hall a Ha) as (o & sd & fs & Ho & Hsd & Hval & Hfs & Hsv).
  unfold record_ok. rewrite Ho, Hsd, Hval, Hsv.
  - simpl. apply forallb_forall. intros f Hf. unfold in_heap.
    by destruct (Hfs f Hf) as [fo ->].
  - intros v [<-|[]]. eauto.
Qed.

Lemma flatten_list_records_checked_witness :
  [1%positive; 4%positive] <> []
  /\ forall a, In a [1%positive; 4%positive] -> record_ok heapSC a = true.
Proof.
  apply (flatten_list_records_checked 5 1%positive heapSC). reflexivity.
Defined.

(* ===================================================================== *)
(** ** How the emitter fails *)
(* ===================================================================== *)

Section EmitFailures.

Implicit Types (h : heap) (o fo : Obj) (a v f : addr)
  (fs vals : list addr) (lines : list line) (size off : Z) (e : exn).

Lemma for_fields_data_cons_fault h f fs lines size :
  field_ok h f = false -> is_Some (h !! f) ->
  exists e, field_fault h f e
    /\ for_fields_data (f :: fs) lines size h = (Raise e, h).
Proof.
  intros Hok [fo Hf].
  assert (forall e, (is_struct fo = true /\ offset fo = None
                     /\ e = AssertionError) \/ e = StructError ->
                    field_fault h f e) as Hfault.
  { intros e He. exists fo. split; [done|].
    destruct He as [He| ->]; [by left | by right]. }
  revert Hok. unfold field_ok, packed_value. simpl.
  unfold field_value, struct_pack. unfold_monad. rewrite Hf.
  destruct (is_struct fo) eqn:Hs.
  - destruct (offset fo) as [z|] eqn:Hoff.
    + intros Hfit. rewrite Hfit. exists StructError.
      split; [apply Hfault; by right | done].
    + intros _. exists AssertionError. split; [apply Hfault; by left | done].
  - intros Hfit. exists StructError. split; [apply Hfault; by right|].
    destruct (val fo) as [|z|]; try done. by rewrite Hfit.
Qed.

Lemma for_fields_data_raise h fs lines size e h' :
  (forall f, In f fs -> is_Some (h !! f)) ->
  for_fields_data fs lines size h = (Raise e, h') ->
  exists f, In f fs /\ field_fault h f e.
Proof.
  revert lines size. induction fs as [|f fs IH]; intros lines size Hin Hrun;
    [done|].
  destruct (field_ok h f) eqn:Hf.
  - rewrite (for_fields_data_cons_ok _ _ _ _ _ Hf) in Hrun.
    destruct (IH _ _ (fun g Hg => Hin g (or_intror Hg)) Hrun) as (g & Hg & Hfault).
    exists g. split; [by right | done].
  - destruct (for_fields_data_cons_fault h f fs lines size Hf
                (Hin f (or_introl eq_refl))) as (e' & Hfault & Hrun').
    rewrite Hrun' in Hrun. injection Hrun as <- _.
    exists f. split; [by left | done].
Qed.

Lemma record_ok_attrs h a :
  record_ok h a = true ->
  exists o sd fs,
    h !! a = Some o /\ is_StructVal o = true /\ struct_def o = Some sd
    /\ val o = VList fs /\ forall f, In f fs -> is_Some (h !! f).
Proof.
  unfold record_ok. destruct (h !! a) as [o|]; [|done].
  destruct (is_StructVal o) eqn:Hsv; [|done].
  destruct (struct_def o) as [sd|] eqn:Hsd; [|done].
  destruct (val o) as [| |fs] eqn:Hval; try done. simpl. intros Hfs.
  exists o, sd, fs. split; [done|]. split; [done|]. split; [done|].
  split; [done|]. intros f Hf.
  pose proof (proj1 (forallb_forall _ _) Hfs f Hf) as Hin.
  unfold in_heap in Hin. by destruct (h !! f).
Qed.

Lemma record_emits_fields_ok h a :
  record_ok h a = true ->
  record_emits h a = forallb (field_ok h) (fields_of h a).
Proof.
  intros Hr. destruct (record_ok_attrs h a Hr) as (o & sd & fs & Ho & Hsv & Hsd & Hval & _).
  unfold record_emits, fields_of. by rewrite Ho, Hsv, Hsd, Hval.
Qed.

Lemma get_cpp_data_raise h a off e h' :
  record_ok h a = true ->
  get_cpp_data_for_struct_val a off h = (Raise e, h') ->
  exists f, In f (fields_of h a) /\ field_fault h f e.
Proof.
  intros Hr. destruct (record_ok_attrs h a Hr) as (o & sd & fs & Ho & Hsv & Hsd & Hval & Hfs).
  unfold get_cpp_data_for_struct_val, fields_of. unfold_monad.
  rewrite Ho, Hsv, Hsd, Hval.
  destruct (for_fields_data fs [BlankLine; HeaderLine (sd_name sd) off] 0 h)
    as [[r| |] h1] eqn:Hrun; try done.
  intros [= <- <-]. by eapply for_fields_data_raise.
Qed.

Lemma for_vals_raise h vals lines off e h' :
  (forall a, In a vals -> record_ok h a = true) ->
  for_vals vals lines off h = (Raise e, h') ->
  exists a f, In a vals /\ In f (fields_of h a) /\ field_fault h f e.
Proof.
  revert lines off. induction vals as [|a vals IH]; intros lines off Hr Hrun;
    [done|].
  cbn [for_vals] in Hrun. unfold bind in Hrun.
  destruct (get_cpp_data_run h a off) as [e0 He0].
  destruct (record_emits h a) eqn:Hemit.
  - rewrite He0 in Hrun. cbn [fst snd] in Hrun.
    destruct (IH _ _ (fun b Hb => Hr b (or_intror Hb)) Hrun) as (b & f & Hb & Hf & Hfault).
    exists b, f. split; [by right | done].
  - pose proof (get_cpp_data_raise h a off e0 h (Hr a (or_introl eq_refl)) He0)
      as (f & Hf & Hfault).
    rewrite He0 in Hrun. injection Hrun as <- _.
    exists a, f. split; [by left | done].
Qed.

Lemma gen_cpp_data_raise h vals e h' :
  vals <> [] ->
  (forall a, In a vals -> record_ok h a = true) ->
  gen_cpp_data_for_struct_values vals h = (Raise e, h') ->
  exists a f, In a vals /\ In f (fields_of h a) /\ field_fault h f e.
Proof.
  intros Hne Hr. destruct vals as [|v0 vals]; [done|].
  destruct (record_ok_attrs h v0 (Hr v0 (or_introl eq_refl)))
    as (o & sd & fs & Ho & Hsv & Hsd & _).
  unfold gen_cpp_data_for_struct_values. unfold_monad. rewrite Ho, Hsv, Hsd.
  destruct (for_vals (v0 :: vals) [ArrayOpen (sd_name sd)] 0 h)
    as [[r| |] h1] eqn:Hrun; try done.
  intros [= <- <-]. by eapply for_vals_raise.
Qed.

Lemma le_bytes_range n z : Forall is_byte (le_bytes n z).
Proof.
  revert z. induction n as [|n IH]; intros z; simpl; constructor; [|apply IH].
  unfold is_byte. apply Z.mod_pos_bound. lia.
Qed.

Lemma int_bytes_range p z : Forall is_byte (int_bytes p z).
Proof.
  unfold int_bytes. destruct (fmt_order p); [apply le_bytes_range|].
  apply Forall_rev, le_bytes_range.
Qed.

Lemma record_bytes_range h a : Forall is_byte (record_bytes h a).
Proof.
  unfold record_bytes. apply Forall_concat, Forall_map, Forall_forall.
  intros f _. unfold field_bytes. destruct (h !! f) as [fo|]; [|done].
  destruct (packed_value fo); [apply int_bytes_range | done].
Qed.

Lemma headers_at_data h fs n rest :
  forallb (field_ok h) fs = true ->
  headers_at n (map (data_line h) fs ++ rest)
  = headers_at (n + fields_width h fs)%Z rest.
Proof.
  revert n. induction fs as [|f fs IH]; intros n Hfs.
  - simpl. by rewrite Z.add_0_r.
  - cbn [forallb] in Hfs. apply andb_prop in Hfs as [Hf Hfs].
    pose proof (field_bytes_length h f Hf) as Hlen.
    cbn [map app fields_width foldr]. fold (fields_width h fs).
    unfold data_line at 1. unfold field_ok in Hf.
    destruct (h !! f) as [fo|]; [|done]. cbn [headers_at].
    rewrite IH, Hlen by done. f_equal. lia.
Qed.

Lemma headers_at_all_lines h vals n rest :
  forallb (record_emits h) vals = true ->
  headers_at n (all_lines h vals n ++ rest)
  = headers_at (n + foldr (fun a s => (record_width h a + s)%Z) 0%Z vals)%Z rest.
Proof.
  revert n. induction vals as [|a vals IH]; intros n Hv.
  - simpl. by rewrite Z.add_0_r.
  - cbn [forallb] in Hv. apply andb_prop in Hv as [Ha Hv].
    cbn [all_lines foldr]. unfold record_lines. rewrite <- !app_assoc.
    cbn [app headers_at]. rewrite Z.eqb_refl. cbn [andb].
    rewrite headers_at_data by (by apply record_emits_fields).
    fold (record_width h a). rewrite IH by done. f_equal. lia.
Qed.

End EmitFailures.

Section EmitAfterFlatten.

Implicit Types (h : heap) (a f : addr) (out : list addr).

Lemma followed_fields_filter h a :
  followed_fields h a = List.filter (follows h) (fields_of h a).
Proof.
  unfold followed_fields, fields_of. destruct (h !! a) as [o|]; [|done].
  by destruct (val o).
Qed.

(** What a successful flattening leaves for the emitter: a non-empty
    list of checked records, closed under following struct fields, in a
    store where each of them holds an offset. *)
Lemma flatten_result fuel root h out :
  fst (flatten_values_tree fuel root h) = Ok out ->
  let h' := snd (flatten_values_tree fuel root h) in
  out <> []
  /\ (forall a, In a out -> record_ok h' a = true)
  /\ (forall a f, In a out -> In f (fields_of h' a) ->
        follows h' f = true -> is_Some (offset_at h' f)).
Proof.
  intros Hout h'.
  pose proof (flatten_same_shape fuel root h) as Hsh. fold h' in Hsh.
  pose proof Hout as Hrun. rewrite flatten_unfold in Hrun.
  destruct (top_check h root) as [[]| |] eqn:Htop; try done.
  apply top_check_Ok in Htop as [(ro & Hro & Hrsv) _].
  destruct (while_left_popped _ _ _ _ Hrun) as (popped & -> & Heq & Hall).
  cbn [l_vals l_left app] in *.
  split; [by rewrite Heq|]. split.
  - intros a Ha. rewrite <- (record_ok_shape _ _ a Hsh).
    destruct (Hall a Ha) as (o & sd & fs & Ho & Hsd & Hval & Hfs & Hsv).
    unfold record_ok. rewrite Ho, Hsd, Hval, Hsv.
    + simpl. apply forallb_forall. intros f Hf. unfold in_heap.
      by destruct (Hfs f Hf) as [fo ->].
    + intros v [<-|[]]. eauto.
  - intros a f Ha Hf Hfol. apply (flatten_assigned fuel root h popped f Hout).
    rewrite Heq. right. apply in_concat.
    exists (followed_fields h a). split; [by apply in_map|].
    rewrite (followed_fields_shape _ _ a Hsh), followed_fields_filter.
    by apply filter_In.
Qed.

End EmitAfterFlatten.

(** X8: after a successful flattening the emitter succeeds exactly
    when every field of every listed record packs: a struct field holds
    an offset in the range of its format, any other field an integer in
    the range of its format. *)
Theorem emit_after_flatten_succeeds_iff fuel root h out :
  fst (flatten_values_tree fuel root h) = Ok out ->
  (exists lines, fst (main_values fuel root h) = Ok lines)
  <-> (forall a f, In a out ->
         In f (fields_of (snd (flatten_values_tree fuel root h)) a) ->
         field_ok (snd (flatten_values_tree fuel root h)) f = true).
Proof.
  intros Hout. destruct (flatten_result fuel root h out Hout) as (Hne & Hrec & _).
  unfold main_values, bind.
  destruct (flatten_values_tree fuel root h) as [r h'] eqn:Hrun.
  cbn [fst snd] in *. subst r.
  destruct out as [|v0 out]; [done|].
  destruct (gen_cpp_data_run h' v0 out) as [e ->].
  assert (forallb (record_emits h') (v0 :: out) = true
          <-> forall a f, In a (v0 :: out) -> In f (fields_of h' a) ->
                field_ok h' f = true) as Hiff.
  { rewrite forallb_forall. split.
    - intros Hall a f Ha Hf. specialize (Hall a Ha).
      rewrite (record_emits_fields_ok h' a (Hrec a Ha)) in Hall.
      by apply (proj1 (forallb_forall _ _) Hall).
    - intros Hall a Ha. rewrite (record_emits_fields_ok h' a (Hrec a Ha)).
      apply forallb_forall. intros f Hf. by apply (Hall a). }
  destruct (forallb (record_emits h') (v0 :: out)).
  - split; [intros _; by apply Hiff | eauto].
  - split; [by intros [lines ?] | intros Hall; by apply Hiff in Hall].
Qed.

Lemma emit_after_flatten_succeeds_iff_witness :
  (exists lines, fst (main_values 5 1%positive heapSC) = Ok lines)
  <-> (forall a f, In a [1%positive; 4%positive] ->
         In f (fields_of (snd (flatten_values_tree 5 1%positive heapSC)) a) ->
         field_ok (snd (flatten_values_tree 5 1%positive heapSC)) f = true).
Proof.
  apply (emit_after_flatten_succeeds_iff 5 1%positive heapSC). reflexivity.
Defined.

(** X9: after a successful flattening the emitter can only fail with
    the [AssertionError] of [assert False] or with [struct.error]; and
    the assertion is only ever tripped by a struct field bound to
    [None]: every non-null struct field of a listed record has received
    an offset. *)
Theorem emit_after_flatten_failures fuel root h out e :
  fst (flatten_values_tree fuel root h) = Ok out ->
  fst (main_values fuel root h) = Raise e ->
  (e = AssertionError \/ e = StructError)
  /\ (e = AssertionError ->
      exists a f fo,
        In a out
        /\ In f (fields_of (snd (flatten_values_tree fuel root h)) a)
        /\ snd (flatten_values_tree fuel root h) !! f = Some fo
        /\ is_struct fo = true /\ val fo = VNone /\ offset fo = None).
Proof.
  intros Hout. destruct (flatten_result fuel root h out Hout) as (Hne & Hrec & Hoff).
  unfold main_values, bind.
  destruct (flatten_values_tree fuel root h) as [r h'] eqn:Hrun.
  cbn [fst snd] in *. subst r.
  destruct (gen_cpp_data_for_struct_values out h') as [r h2] eqn:Hemit.
  cbn [fst]. intros ->.
  destruct (gen_cpp_data_raise h' out e h2 Hne Hrec Hemit)
    as (a & f & Ha & Hf & fo & Hfo & Hfault).
  split.
  - destruct Hfault as [(_ & _ & ->)|(_ & ->)]; [by left | by right].
  - intros ->. destruct Hfault as [(Hs & Hnone & _)|(_ & [=])].
    exists a, f, fo. split; [done|]. split; [done|]. split; [done|].
    split; [done|]. split; [|done].
    destruct (follows h' f) eqn:Hfol.
    + destruct (Hoff a f Ha Hf Hfol) as [z Hz].
      unfold offset_at in Hz. rewrite Hfo in Hz. congruence.
    + unfold follows in Hfol. rewrite Hfo, Hs in Hfol.
      by destruct (val fo).
Qed.

Lemma emit_after_flatten_failures_witness :
  (AssertionError = AssertionError \/ AssertionError = StructError)
  /\ (AssertionError = AssertionError ->
      exists a f fo,
        In a [1%positive]
        /\ In f (fields_of (snd (flatten_values_tree 3 1%positive heapNull)) a)
        /\ snd (flatten_values_tree 3 1%positive heapNull) !! f = Some fo
        /\ is_struct fo = true /\ val fo = VNone /\ offset fo = None).
Proof.
  apply (emit_after_flatten_failures 3 1%positive heapNull); reflexivity.
Defined.

(** X10: the emitter only reads: whatever [gen_cpp_data_for_struct_values]
    or [get_cpp_data_for_struct_val] returns or raises, the store is
    as it was. *)
Theorem emitter_leaves_store h vals a off :
  snd (gen_cpp_data_for_struct_values vals h) = h
  /\ snd (get_cpp_data_for_struct_val a off h) = h.
Proof.
  split; [apply gen_cpp_data_heap|].
  destruct (get_cpp_data_run h a off) as [e ->]. done.
Qed.

(** X11: the size [get_cpp_data_for_struct_val] returns is the number
    of bytes in the lines it returns, there are two lines more than
    fields, and the offset argument changes neither the size nor the
    bytes. *)
Theorem get_cpp_data_size h a off lines size h' :
  get_cpp_data_for_struct_val a off h = (Ok (lines, size), h') ->
  size = Z.of_nat (length (data_bytes lines))
  /\ length lines = 2 + length (fields_of h a)
  /\ forall off', exists lines',
       get_cpp_data_for_struct_val a off' h = (Ok (lines', size), h)
       /\ data_bytes lines' = data_bytes lines.
Proof.
  destruct (get_cpp_data_run h a off) as [e ->].
  destruct (record_emits h a) eqn:Hemit; [|done].
  intros [= <- <- <-].
  pose proof (record_emits_fields h a Hemit) as Hfs.
  split; [|split].
  - rewrite record_lines_bytes by done. symmetry. by apply record_bytes_length.
  - unfold record_lines. rewrite length_app, length_map. done.
  - intros off'. destruct (get_cpp_data_run h a off') as [e' ->].
    rewrite Hemit. eexists. split; [done|].
    by rewrite !record_lines_bytes.
Qed.

Lemma get_cpp_data_size_witness :
  5%Z = Z.of_nat (length (data_bytes (record_lines heapSC 4%positive 16)))
  /\ length (record_lines heapSC 4%positive 16)
     = 2 + length (fields_of heapSC 4%positive)
  /\ forall off', exists lines',
       get_cpp_data_for_struct_val 4%positive off' heapSC
       = (Ok (lines', 5%Z), heapSC)
       /\ data_bytes lines' = data_bytes (record_lines heapSC 4%positive 16).
Proof.
  apply (get_cpp_data_size heapSC 4%positive 16 _ 5 heapSC). reflexivity.
Defined.

(** X12: in the table [gen_cpp_data_for_struct_values] returns, the
    offset printed in the header comment of each record is the number
    of table bytes before that record. *)
Theorem gen_cpp_data_header_offsets h vals out h' :
  gen_cpp_data_for_struct_values vals h = (Ok out, h') ->
  headers_at 0 out = true.
Proof.
  destruct vals as [|v0 vals]; [done|].
  destruct (gen_cpp_data_run h v0 vals) as [e ->].
  destruct (forallb (record_emits h) (v0 :: vals)) eqn:Hemit; [|done].
  intros [= <- <-].
  change (headers_at 0 (all_lines h (v0 :: vals) 0 ++ [ArrayClose]) = true).
  by rewrite headers_at_all_lines.
Qed.

Lemma gen_cpp_data_header_offsets_witness :
  headers_at 0
    (match fst (gen_cpp_data_for_struct_values [1%positive; 4%positive]
                  (snd (flatten_values_tree 5 1%positive heapSC))) with
     | Ok out => out
     | _ => []
     end) = true.
Proof.
  apply (gen_cpp_data_header_offsets
           (snd (flatten_values_tree 5 1%positive heapSC))
           [1%positive; 4%positive] _
           (snd (flatten_values_tree 5 1%positive heapSC))).
  reflexivity.
Defined.

(** X13: every byte of the table [gen_cpp_data_for_struct_values]
    returns is in 0..255, so [data_to_hex] prints each with two
    digits. *)
Theorem gen_cpp_data_bytes_range h vals out h' :
  gen_cpp_data_for_struct_values vals h = (Ok out, h') ->
  Forall is_byte (data_bytes out).
Proof.
  destruct vals as [|v0 vals]; [done|].
  destruct (gen_cpp_data_run h v0 vals) as [e ->].
  destruct (forallb (record_emits h) (v0 :: vals)) eqn:Hemit; [|done].
  intros [= <- <-].
  change (Forall is_byte (data_bytes (all_lines h (v0 :: vals) 0 ++ [ArrayClose]))).
  rewrite data_bytes_app, all_lines_bytes by done.
  apply Forall_app. split; [|done].
  apply Forall_concat, Forall_map, Forall_forall.
  intros a _. apply record_bytes_range.
Qed.

Lemma gen_cpp_data_bytes_range_witness :
  Forall is_byte
    (data_bytes
       (match fst (gen_cpp_data_for_struct_values [1%positive; 4%positive]
                     (snd (flatten_values_tree 5 1%positive heapSC))) with
        | Ok out => out
        | _ => []
        end)).
Proof.
  apply (gen_cpp_data_bytes_range
           (snd (flatten_values_tree 5 1%positive heapSC))
           [1%positive; 4%positive] _
           (snd (flatten_values_tree 5 1%positive heapSC))).
  reflexivity.
Defined.

Section TablePositions.

Implicit Types (h : heap) (a f : addr) (t : tree).

(** A successful run on a tree: the store holds the cumulative offsets
    along the level order and every record of it has been emitted. *)
Lemma main_values_tree_run h t fuel out h' :
  is_tree h t = true ->
  main_values fuel (root t) h = (Ok out, h') ->
  h' = assign_offsets (level_order t) 0 h
  /\ fst (flatten_values_tree fuel (root t) h) = Ok (level_order t)
  /\ forallb (record_emits h') (level_order t) = true.
Proof.
  intros Ht Hrun. unfold main_values, bind in Hrun.
  assert (first_var_is_version h (root t) = true) as Hv.
  { rewrite flatten_unfold in Hrun.
    destruct (top_check h (root t)) as [[]| |] eqn:Htop; try done.
    by apply top_check_Ok in Htop as [_ ?]. }
  rewrite (flatten_tree_run fuel h t Ht Hv) in Hrun |- *.
  destruct (decide (tree_size t <= fuel)) as [Hfuel|]; [|done].
  rewrite take_ge in Hrun by (rewrite level_order_length; lia).
  destruct (level_order_head t) as [rest Hrest].
  rewrite Hrest in Hrun at 1.
  destruct (gen_cpp_data_run (assign_offsets (level_order t) 0 h) (root t) rest)
    as [e He].
  rewrite He in Hrun. rewrite <- Hrest in Hrun.
  destruct (forallb (record_emits (assign_offsets (level_order t) 0 h))
              (level_order t)) eqn:Hemit; [|done].
  injection Hrun as _ <-. done.
Qed.

Lemma forallb_take {A} (p : A -> bool) (l : list A) i :
  forallb p l = true -> forallb p (take i l) = true.
Proof.
  rewrite !forallb_forall. intros H x Hx. apply H.
  apply list_elem_of_In. apply list_elem_of_In in Hx.
  apply elem_of_take in Hx as (j & Hj & _).
  apply list_elem_of_lookup. eauto.
Qed.

End TablePositions.

(** X14: when an acyclic value tree without sharing is flattened and
    emitted, and [c_size] is the packed width of every record, the
    offset stored in a record is the position of its bytes in the
    emitted table, and the bytes packed for a non-null struct field are
    that position of the record the field refers to. *)
Theorem struct_offsets_are_table_positions h t fuel out h' :
  is_tree h t = true ->
  NoDup (nodes t) ->
  (forall a, In a (nodes t) -> sized_ok h a = true) ->
  main_values fuel (root t) h = (Ok out, h') ->
  let position i :=
    Z.of_nat (length (concat (map (record_bytes h') (take i (level_order t))))) in
  data_bytes out = concat (map (record_bytes h') (level_order t))
  /\ (forall i a, level_order t !! i = Some a ->
        offset_at h' a = Some (position i))
  /\ (forall a f fo, In a (level_order t) -> In f (fields_of h' a) ->
        h' !! f = Some fo -> follows h' f = true ->
        exists j, level_order t !! j = Some f
          /\ field_bytes h' f = int_bytes (pack_format (typ fo)) (position j)).
Proof.
  intros Ht Hnd Hsized Hrun position.
  destruct (main_values_tree_run h t fuel out h' Ht Hrun) as (Hh' & Hflat & Hemit).
  pose proof (level_order_NoDup t Hnd) as HndL.
  assert (same_shape h h') as Hsh by (rewrite Hh'; apply assign_offsets_shape).
  assert (forall i a, level_order t !! i = Some a ->
            offset_at h' a = Some (position i)) as Hpos.
  { intros i a Hi. rewrite Hh'.
    rewrite (assign_offsets_lookup (level_order t) 0 h i a HndL); [|
      intros b; by apply level_order_in_heap | done].
    f_equal. unfold position.
    rewrite concat_record_bytes_length by (by apply forallb_take).
    rewrite (sized_ok_sum h h'); [done | done |].
    intros b Hb. apply Hsized. apply list_elem_of_In.
    rewrite <- (level_order_perm t). apply list_elem_of_In in Hb.
    apply elem_of_take in Hb as (j & Hj & _).
    apply list_elem_of_lookup. eauto. }
  split; [|split; [exact Hpos|]].
  - unfold main_values, bind in Hrun.
    destruct (flatten_values_tree fuel (root t) h) as [r h1].
    cbn [fst] in Hflat. subst r.
    destruct (level_order_head t) as [rest Hrest]. rewrite Hrest in Hrun.
    destruct (gen_cpp_data_run h1 (root t) rest) as [e He].
    rewrite He in Hrun. rewrite <- Hrest in Hrun.
    destruct (forallb (record_emits h1) (level_order t)) eqn:Hemit1; [|done].
    injection Hrun as <- <-.
    change (data_bytes (all_lines h1 (level_order t) 0 ++ [ArrayClose])
            = concat (map (record_bytes h1) (level_order t))).
    rewrite data_bytes_app, all_lines_bytes by done.
    change (data_bytes [ArrayClose]) with (@nil Z). by rewrite app_nil_r.
  - intros a f fo Ha Hf Hfo Hfol.
    assert (In f (level_order t)) as Hin.
    { pose proof (while_left_popped fuel (Locals [root t] 0 []) h (level_order t))
        as Hpop.
      rewrite flatten_unfold in Hflat.
      destruct (top_check h (root t)) as [[]| |]; try done.
      destruct (Hpop Hflat) as (popped & Hout & Heq & _).
      cbn [l_vals l_left app] in *. subst popped. rewrite Heq. right.
      apply in_concat. exists (followed_fields h a).
      split; [by apply in_map|].
      rewrite (followed_fields_shape _ _ a Hsh), followed_fields_filter.
      by apply filter_In. }
    apply list_elem_of_In, list_elem_of_lookup in Hin as [j Hj].
    exists j. split; [done|].
    specialize (Hpos j f Hj). unfold offset_at in Hpos. rewrite Hfo in Hpos.
    unfold follows in Hfol. rewrite Hfo in Hfol.
    apply andb_prop in Hfol as [Hs _].
    unfold field_bytes, packed_value. by rewrite Hfo, Hs, Hpos.
Qed.

Lemma struct_offsets_are_table_positions_witness :
  offset_at (snd (main_values 5 1%positive heapSC)) 4%positive = Some 16%Z.
Proof.
  destruct (struct_offsets_are_table_positions heapSC treeSC 5
              (match fst (main_values 5 1%positive heapSC) with
               | Ok out => out | _ => [] end)
              (snd (main_values 5 1%positive heapSC))) as (_ & Hpos & _).
  - reflexivity.
  - simpl. apply NoDup_cons. split; [by intros ?%list_elem_of_singleton|].
    apply NoDup_singleton.
  - intros a [<-|[<-|[]]]; reflexivity.
  - reflexivity.
  - exact (Hpos 1 4%positive eq_refl).
Defined.
